(** * segpy: sample-type registry, test strategies and catalog round trip

    A shallow embedding of [segpy/datatypes.py] and [test/strategies.py],
    and of the Catalog of [segpy/catalog.py] as its specification describes
    it, with the properties of the specification stated over them.

    Python integers are [Z], [str] values are [string], and a function that
    may raise returns a [result].  The static tables of the registry and
    the mappings handed to the Catalog builder are finite maps ([gmap]);
    a dictionary whose order matters is the list of its items.  A strategy
    of the property-testing engine is a function from a source of random
    choices to what it draws. *)

From Stdlib Require Import PrimFloat.
From stdpp Require Import gmap strings list fin_maps pretty sorting.

Open Scope string_scope.
Open Scope list_scope.
Open Scope Z_scope.

(** ** Python exceptions and results *)

Inductive exn :=
| ValueError (msg : string)
| TypeError (msg : string)
| KeyError (msg : string)
| AttributeError (msg : string).

Inductive result (A : Type) :=
| Ok (a : A)
| Raised (e : exn).
Arguments Ok {A} a.
Arguments Raised {A} e.

Definition is_raised {A} (r : result A) : Prop :=
  match r with Ok _ => False | Raised _ => True end.

(** A dict display or comprehension fills the dictionary item by item: a
    later item with the same key replaces the earlier one. *)
Definition dict_of_items `{Countable K} {V} (items : list (K * V)) : gmap K V :=
  foldl (λ d kv, <[kv.1 := kv.2]> d) ∅ items.

(** ** segpy/datatypes.py *)

Module Datatypes.

Definition DATA_SAMPLE_FORMAT_TO_SEG_Y_TYPE_items : list (Z * string) :=
  [(1, "ibm"); (2, "int32"); (3, "int16"); (5, "float32"); (8, "int8")].

Definition DATA_SAMPLE_FORMAT_TO_SEG_Y_TYPE : gmap Z string :=
  dict_of_items DATA_SAMPLE_FORMAT_TO_SEG_Y_TYPE_items.

(** [{v: k for k, v in DATA_SAMPLE_FORMAT_TO_SEG_Y_TYPE.items()}] *)
Definition SEG_Y_TYPE_TO_DATA_SAMPLE_FORMAT : gmap string Z :=
  dict_of_items
    (map (λ kv, (kv.2, kv.1)) DATA_SAMPLE_FORMAT_TO_SEG_Y_TYPE_items).

Definition SEG_Y_TYPE_TO_CTYPE_items : list (string * string) :=
  [("int32", "i"); ("uint32", "I"); ("int16", "h"); ("uint16", "H");
   ("int8", "b"); ("uint8", "B"); ("float32", "f"); ("ibm", "ibm")].

Definition SEG_Y_TYPE_TO_CTYPE : gmap string string :=
  dict_of_items SEG_Y_TYPE_TO_CTYPE_items.

Definition CTYPE_TO_SIZE_items : list (string * Z) :=
  [("i", 4); ("I", 4); ("h", 2); ("H", 2);
   ("b", 1); ("B", 1); ("f", 4); ("ibm", 4)].

Definition CTYPE_TO_SIZE : gmap string Z :=
  dict_of_items CTYPE_TO_SIZE_items.

Section SizeInBytes.
(** Python's [repr] of the argument, as ["{!r}".format(ctype)] renders it. *)
Variable repr : string → string.

Definition size_in_bytes (ctype : string) : result Z :=
  match CTYPE_TO_SIZE !! ctype with
  | Some size => Ok size
  | None => Raised (ValueError ("No such C-type " +:+ repr ctype))
  end.

End SizeInBytes.

Definition SEG_Y_TYPE_DESCRIPTION_items : list (string * string) :=
  [("ibm", "IBM 32 bit float");
   ("int32", "32 bit signed integer");
   ("uint32", "32 bit unsigned integer");
   ("int16", "16 bit signed integer");
   ("uint16", "16 bit unsigned integer");
   ("float32", "IEEE float32");
   ("int8", "8 bit signed integer (byte)");
   ("uint8", "8 bit unsigned integer (byte)")].

Definition SEG_Y_TYPE_DESCRIPTION : gmap string string :=
  dict_of_items SEG_Y_TYPE_DESCRIPTION_items.

(** A Python number: an [int] or a [float]. *)
Inductive number :=
| Int (i : Z)
| Float (f : PrimFloat.float).

(** [Limits = namedtuple('Limits', ['min', 'max'])] *)
Record Limits := MkLimits { min : number; max : number }.

Section LimitsTable.
(** The two constants imported from [segpy.ibm_float]. *)
Variables MIN_IBM_FLOAT MAX_IBM_FLOAT : PrimFloat.float.

Definition LIMITS_items : list (string * Limits) :=
  [("ibm", MkLimits (Float MIN_IBM_FLOAT) (Float MAX_IBM_FLOAT));
   ("int32", MkLimits (Int (-2147483648)) (Int 2147483647));
   ("int16", MkLimits (Int (-32768)) (Int 32767));
   ("float32", MkLimits (Float (-3.402823e38)%float) (Float 3.402823e38%float));
   ("int8", MkLimits (Int (-128)) (Int 127))].

Definition LIMITS : gmap string Limits := dict_of_items LIMITS_items.

End LimitsTable.

(** The Python types [float] and [int]. *)
Inductive py_type :=
| py_float
| py_int.

Definition PY_TYPES_items : list (string * py_type) :=
  [("ibm", py_float); ("int32", py_int); ("int16", py_int);
   ("float32", py_float); ("int8", py_int)].

Definition PY_TYPES : gmap string py_type := dict_of_items PY_TYPES_items.

Definition ENDIAN_items : list (string * string) :=
  [("<", "little"); (">", "big")].

Definition ENDIAN : gmap string string := dict_of_items ENDIAN_items.

End Datatypes.

(** ** Python built-ins used by the test strategies *)

(** *** [range] objects *)

Record range := Range { start : Z; stop : Z; step : Z }.

Global Instance range_eq_dec : EqDecision range.
Proof. solve_decision. Defined.

(** [range(start, stop, step)]: a zero step is refused. *)
Definition py_range (start stop step : Z) : result range :=
  if decide (step = 0) then Raised (ValueError "range() arg 3 must not be zero")
  else Ok (Range start stop step).

(** [len(r)] *)
Definition range_len (r : range) : Z :=
  if decide (0 < step r) then
    if decide (start r < stop r) then (stop r - start r - 1) `div` step r + 1 else 0
  else if decide (step r < 0) then
    if decide (stop r < start r) then (start r - stop r - 1) `div` (- step r) + 1 else 0
  else 0.

(** [list(r)] *)
Definition range_list (r : range) : list Z :=
  (λ i, start r + i * step r) <$> seqZ 0 (range_len r).

(** [k in r] *)
Definition range_contains (r : range) (k : Z) : bool :=
  (if decide (0 < step r) then bool_decide (start r ≤ k < stop r)
   else bool_decide (stop r < k ≤ start r))
  && bool_decide ((k - start r) `mod` step r = 0).

(** [range] applied to an unpacked list of one, two or three integers. *)
Definition range_of_args (args : list Z) : result range :=
  match args with
  | [b] => py_range 0 b 1
  | [a; b] => py_range a b 1
  | [a; b; c] => py_range a b c
  | _ => Raised (TypeError "range expected at least 1 argument and at most 3")
  end.

(** *** Insertion-ordered dictionaries

    A dictionary whose order matters (keyword arguments, the dictionaries of
    strategies handed to [fixed_dictionaries]) is the list of its items in
    insertion order. *)

Section PyDict.
Context {K V : Type} `{EqDecision K}.

(** [d.get(k)] *)
Fixpoint dict_get (k : K) (d : list (K * V)) : option V :=
  match d with
  | [] => None
  | (k', v) :: d' => if decide (k = k') then Some v else dict_get k d'
  end.

(** [d[k] = v]: replaces the value in place, or appends a new item. *)
Fixpoint dict_set (k : K) (v : V) (d : list (K * V)) : list (K * V) :=
  match d with
  | [] => [(k, v)]
  | (k', v') :: d' =>
      if decide (k = k') then (k, v) :: d' else (k', v') :: dict_set k v d'
  end.

(** The dictionary left by [d.pop(k)]. *)
Definition dict_pop (k : K) (d : list (K * V)) : list (K * V) :=
  filter (λ kv, kv.1 ≠ k) d.

(** [d.keys()] *)
Definition dict_keys (d : list (K * V)) : list K := d.*1.

(** [{k: v for k, v in items}] *)
Definition dict_from_items (items : list (K * V)) : list (K * V) :=
  foldl (λ d kv, dict_set kv.1 kv.2 d) [] items.

End PyDict.

(** *** Strings and bytes *)

(** [sep.join(parts)] *)
Fixpoint join (sep : string) (parts : list string) : string :=
  match parts with
  | [] => ""
  | [p] => p
  | p :: ps => p +:+ sep +:+ join sep ps
  end.

(** [bytes(n)] for an integer [n]: [n] zero bytes. *)
Definition bytes (n : Z) : result (list Byte.byte) :=
  if decide (n < 0) then Raised (ValueError "negative count")
  else Ok (replicate (Z.to_nat n) Byte.x00).

(** [b.decode('ascii')] *)
Fixpoint decode_ascii (b : list Byte.byte) : result string :=
  match b with
  | [] => Ok ""
  | c :: b' =>
      if decide (Byte.to_nat c < 128)%nat then
        match decode_ascii b' with
        | Ok s => Ok (String (Ascii.ascii_of_byte c) s)
        | Raised e => Raised e
        end
      else Raised (ValueError "'ascii' codec can't decode byte")
  end.

(** [chr(i)] for a code point below 256. *)
Definition chr (i : Z) : Ascii.ascii := Ascii.ascii_of_nat (Z.to_nat i).

(** [ord(c)] *)
Definition ord (c : Ascii.ascii) : Z := Z.of_nat (Ascii.nat_of_ascii c).

(** [str(i)] for an integer. *)
Definition str_of_int (i : Z) : string := pretty i.

(** [mapM] for functions that may raise: the first exception wins. *)
Fixpoint traverse {A B} (f : A → result B) (l : list A) : result (list B) :=
  match l with
  | [] => Ok []
  | x :: l' =>
      match f x with
      | Ok y => match traverse f l' with
                | Ok ys => Ok (y :: ys)
                | Raised e => Raised e
                end
      | Raised e => Raised e
      end
  end.

(** [itertools.accumulate]: running totals. *)
Fixpoint accumulate_from (total : Z) (l : list Z) : list Z :=
  match l with
  | [] => []
  | x :: l' => (total + x) :: accumulate_from (total + x) l'
  end.

Definition accumulate (l : list Z) : list Z :=
  match l with
  | [] => []
  | x :: l' => x :: accumulate_from x l'
  end.

(** [itertools.product(xs, ys)] *)
Definition product {A B} (xs : list A) (ys : list B) : list (A * B) :=
  list_prod xs ys.

(** ** The property-testing engine

    The strategies of the engine that the test strategies are built from
    ([integers], [just], [lists], [text], [sampled_from],
    [fixed_dictionaries], [map], [flatmap], and [composite] with [draw] and
    [assume]).  A strategy reads its random choices from a source of
    integers and either draws a value (leaving the rest of the source),
    raises, or rejects the example (a failed [assume], a choice outside the
    bounds, an exhausted source).

    The engine refuses arguments that describe no strategy (a minimum above
    a maximum, a negative size, an empty sequence to sample from) with an
    error of its own.  That check is not part of this model, in which such
    a strategy draws nothing: what is stated below of a strategy is stated
    of the values it draws and of the errors that the code under test
    raises itself. *)

Definition source := list Z.

Inductive outcome (A : Type) :=
| Drawn (a : A) (rest : source)
| Failed (e : exn)
| Rejected.
Arguments Drawn {A} a rest.
Arguments Failed {A} e.
Arguments Rejected {A}.

Definition Strategy (A : Type) : Type := source → outcome A.

Definition ret {A} (a : A) : Strategy A := λ src, Drawn a src.

Definition bind {A B} (s : Strategy A) (f : A → Strategy B) : Strategy B :=
  λ src,
    match s src with
    | Drawn a rest => f a rest
    | Failed e => Failed e
    | Rejected => Rejected
    end.

Definition raise {A} (e : exn) : Strategy A := λ _, Failed e.

Definition reject {A} : Strategy A := λ _, Rejected.

Definition lift {A} (r : result A) : Strategy A :=
  match r with
  | Ok a => ret a
  | Raised e => raise e
  end.

Notation "'draw' x <~ s ; k" := (bind s (λ x, k))
  (at level 10, x name, s at level 100, k at level 200,
   format "'[v' 'draw'  x  <~  s ; '/' k ']'").

(** [assume(condition)] *)
Definition assume (condition : bool) : Strategy unit :=
  if condition then ret () else reject.

(** [just(v)] *)
Definition just {A} (v : A) : Strategy A := ret v.

Definition in_bounds (min_value max_value : option Z) (z : Z) : bool :=
  from_option (λ lo, bool_decide (lo ≤ z)) true min_value
  && from_option (λ hi, bool_decide (z ≤ hi)) true max_value.

(** [integers(min_value, max_value)]: both bounds are inclusive, and a
    bound that is [None] is absent. *)
Definition integers (min_value max_value : option Z) : Strategy Z :=
  λ src,
    match src with
    | [] => Rejected
    | z :: rest => if in_bounds min_value max_value z then Drawn z rest else Rejected
    end.

(** [s.map(f)], for [f] that returns and for [f] that may raise. *)
Definition smap {A B} (s : Strategy A) (f : A → B) : Strategy B :=
  draw a <~ s; ret (f a).

Definition smap_raising {A B} (s : Strategy A) (f : A → result B) : Strategy B :=
  draw a <~ s; lift (f a).

(** [s.flatmap(f)] *)
Definition flatmap {A B} (s : Strategy A) (f : A → Strategy B) : Strategy B :=
  bind s f.

Fixpoint draw_n {A} (elements : Strategy A) (n : nat) : Strategy (list A) :=
  match n with
  | O => ret []
  | S n' => draw x <~ elements; draw xs <~ draw_n elements n'; ret (x :: xs)
  end.

(** [lists(elements, min_size=.., max_size=..)] *)
Definition lists {A} (elements : Strategy A) (min_size max_size : Z) : Strategy (list A) :=
  draw n <~ integers (Some min_size) (Some max_size);
  draw _ <~ assume (bool_decide (0 ≤ n));
  draw_n elements (Z.to_nat n).

(** [sampled_from(xs)] *)
Definition sampled_from {A} (xs : list A) : Strategy A :=
  draw i <~ integers (Some 0) (Some (Z.of_nat (length xs) - 1));
  match xs !! Z.to_nat i with
  | Some x => ret x
  | None => reject
  end.

(** [text(alphabet=..)] *)
Definition text (alphabet : string) : Strategy string :=
  draw n <~ integers (Some 0) None;
  draw cs <~ draw_n (sampled_from (String.list_ascii_of_string alphabet)) (Z.to_nat n);
  ret (String.string_of_list_ascii cs).

(** [fixed_dictionaries(d)]: one draw per key, in the order of [d]. *)
Fixpoint fixed_dictionaries {K V} (d : list (K * Strategy V)) : Strategy (list (K * V)) :=
  match d with
  | [] => ret []
  | (k, s) :: d' =>
      draw v <~ s; draw kvs <~ fixed_dictionaries d'; ret ((k, v) :: kvs)
  end.

(** A value that the strategy draws from some source. *)
Definition produces {A} (s : Strategy A) (a : A) : Prop :=
  ∃ src rest, s src = Drawn a rest.

(** ** segpy.util.batched *)

Fixpoint batches {A} (fuel : nat) (items : list A) (batch_size : nat)
    (padding : option A) : list (list A) :=
  match fuel, items with
  | O, _ | _, [] => []
  | S fuel', _ =>
      let batch := take batch_size items in
      let batch :=
        match padding with
        | Some pad => batch ++ replicate (batch_size - length batch) pad
        | None => batch
        end in
      batch :: batches fuel' (drop batch_size items) batch_size padding
  end.

(** Modelled from the spec: [batched] of [segpy/util.py], which the test
    strategies import and whose source is not at hand.  Groups of
    [batch_size] elements in the original order; without a padding value
    the last group is short, with one it is filled up to [batch_size]; a
    batch size below one is an invalid argument. *)
Definition batched {A} (items : list A) (batch_size : Z) (padding : option A)
    : result (list (list A)) :=
  if decide (batch_size < 1) then Raised (ValueError "Batch size must be at least one")
  else Ok (batches (length items) items (Z.to_nat batch_size) padding).

(** ** test/strategies.py *)

Module Strategies.

Definition PRINTABLE_ASCII_RANGE : Z * Z := (32, 127).

(** The characters [chr(i)] for [i] in [range(32, 127)], joined. *)
Definition PRINTABLE_ASCII_ALPHABET : string :=
  String.string_of_list_ascii
    (chr <$> range_list (Range PRINTABLE_ASCII_RANGE.1 PRINTABLE_ASCII_RANGE.2 1)).

(** The lines of the text, one per drawn integer: [bytes(x).decode('ascii')]. *)
Definition decoded_lines (xs : list Z) : result (list string) :=
  traverse
    (λ x, match bytes x with
          | Ok b => decode_ascii b
          | Raised e => Raised e
          end) xs.

Definition newline : string := String (Ascii.ascii_of_nat 10) "".

Definition multiline_ascii_encodable_text (min_num_lines max_num_lines : Z)
    : Strategy string :=
  smap_raising
    (flatmap (integers (Some min_num_lines) (Some max_num_lines))
       (λ n, lists (integers (Some PRINTABLE_ASCII_RANGE.1)
                             (Some PRINTABLE_ASCII_RANGE.2)) n n))
    (λ xs, match decoded_lines xs with
           | Ok lines => Ok (join newline lines)
           | Raised e => Raised e
           end).

Definition spaced_ranges (min_num_ranges max_num_ranges min_interval max_interval : Z)
    : Strategy (list range) :=
  smap_raising
    (smap_raising
       (smap
          (flatmap
             (smap (integers (Some min_num_ranges) (Some max_num_ranges))
                   (λ n, 2 * n))
             (λ n, lists (integers (Some min_interval) (Some max_interval)) n n))
          (λ lst, accumulate lst))
       (λ lst, batched lst 2 None))
    (λ pairs, traverse range_of_args pairs).

(** The value domain of a header field. *)
Inductive value_type :=
| Enumerated (VALUES : list Z)
| Bounded (MINIMUM MAXIMUM : Z).

(** Modelled from the spec: a header class (the header classes of segpy are
    not at hand), by what [header] asks of it: its name, its ordered
    fields, each with the value type that describes its domain, either an
    enumerated set of legal values or a numeric minimum and maximum, and
    the call of the class on a dictionary of field values, which builds an
    instance or raises. *)
Record header_class (instance : Type) := HeaderClass {
  class_name : string;
  class_fields : list (string * value_type);
  class_call : list (string * Z) → result instance
}.
Arguments HeaderClass {instance} class_name class_fields class_call.
Arguments class_name {instance} h.
Arguments class_fields {instance} h.
Arguments class_call {instance} h kw.

Definition ordered_field_names {instance} (cls : header_class instance)
    : list string :=
  (class_fields cls).*1.

(** [getattr(header_class, field_name).value_type] *)
Definition field_value_type {instance} (cls : header_class instance)
    (field_name : string) : result value_type :=
  match dict_get field_name (class_fields cls) with
  | Some t => Ok t
  | None => Raised (AttributeError ("type object has no attribute " +:+ field_name))
  end.

(** [sorted(xs)] *)
Definition sorted (xs : list Z) : list Z := merge_sort Z.le xs.

(** The loop of [header] over the ordered field names: the keyword
    arguments not yet used, and the field strategies so far. *)
Fixpoint header_fields {instance} (cls : header_class instance)
    (names : list string) (kwargs : list (string * Z))
    (field_strategies : list (string * Strategy Z))
    : result (list (string * Z) * list (string * Strategy Z)) :=
  match names with
  | [] => Ok (kwargs, field_strategies)
  | field_name :: names' =>
      match dict_get field_name kwargs with
      | Some v =>
          header_fields cls names' (dict_pop field_name kwargs)
            (dict_set field_name (just v) field_strategies)
      | None =>
          match field_value_type cls field_name with
          | Ok (Enumerated VALUES) =>
              header_fields cls names' kwargs
                (dict_set field_name (sampled_from (sorted VALUES)) field_strategies)
          | Ok (Bounded MINIMUM MAXIMUM) =>
              header_fields cls names' kwargs
                (dict_set field_name (integers (Some MINIMUM) (Some MAXIMUM))
                   field_strategies)
          | Raised e => Raised e
          end
      end
  end.

(** [header(cls, **kwargs)] for a call that passes the class by position:
    [kwargs] holds the keyword arguments of the call.  A keyword named
    [header_class] is bound by Python to the first parameter, which the
    class already fills, and the call is refused before the body runs.
    The returned strategy draws the field values and calls the class on
    them, which may raise at the draw. *)
Definition header {instance} (cls : header_class instance)
    (kwargs : list (string * Z)) : result (Strategy instance) :=
  if decide ("header_class" ∈ dict_keys kwargs) then
    Raised (TypeError "header() got multiple values for argument 'header_class'")
  else
    match header_fields cls (ordered_field_names cls) kwargs [] with
    | Raised e => Raised e
    | Ok (kwargs, field_strategies) =>
        if decide (0 < length kwargs)%nat then
          Raised (TypeError ("Unrecognised binary header field names "
                             +:+ join ", " (dict_keys kwargs)
                             +:+ " for " +:+ class_name cls))
        else
          Ok (smap_raising (fixed_dictionaries field_strategies) (class_call cls))
    end.

(** A Python value held by a dictionary of strings with overrides. *)
Inductive pyvalue :=
| PyStr (s : string)
| PyInt (i : Z)
| PyNone.

(** [fixed_dict_of_printable_strings(keys, **overrides)] for a call that
    passes the key list by position: [overrides] holds the keyword
    arguments of the call.  A keyword named [keys] is bound by Python to
    the first parameter, which the key list already fills, and the call is
    refused before the body runs. *)
Definition fixed_dict_of_printable_strings (keys : list string)
    (overrides : list (string * pyvalue))
    : result (Strategy (list (string * pyvalue))) :=
  if decide ("keys" ∈ dict_keys overrides) then
    Raised (TypeError ("fixed_dict_of_printable_strings() got multiple values "
                       +:+ "for argument 'keys'"))
  else
    let d := dict_from_items
               ((λ key, (key, smap (text PRINTABLE_ASCII_ALPHABET) PyStr)) <$> keys) in
    let d := foldl (λ d keyword,
                      match dict_get keyword overrides with
                      | Some v => dict_set keyword (just v) d
                      | None => d
                      end) d (dict_keys overrides) in
    Ok (fixed_dictionaries d).

Definition ranges (min_start_value max_start_value min_size max_size
    min_step_value max_step_value : option Z) : Strategy range :=
  let min_size := default 0 min_size in
  if decide (min_size < 0) then
    raise (ValueError ("Value of " +:+ str_of_int min_size
                       +:+ " as min_size for ranges() is negative."))
  else
    draw _ <~ match max_size with
              | Some bound =>
                  if decide (bound < min_size) then
                    raise (ValueError
                             ("Value of " +:+ str_of_int bound
                              +:+ " as max_size for ranges() is less than min_size="
                              +:+ str_of_int min_size))
                  else ret ()
              | None => ret ()
              end;
    draw start <~ integers min_start_value max_start_value;
    draw length <~ integers (Some min_size) max_size;
    draw step <~ integers min_step_value max_step_value;
    draw _ <~ assume (bool_decide (step ≠ 0));
    let stop := start + step * length in
    lift (py_range start stop step).

Record Items2D := MkItems2D {
  i_range : range;
  j_range : range;
  items : list ((Z * Z) * Z)
}.

Definition items2d (i_size j_size : Z) : Strategy Items2D :=
  draw i_range <~ ranges None None (Some 1) (Some i_size) (Some 1) None;
  draw j_range <~ ranges None None (Some 1) (Some j_size) (Some 1) None;
  let size := range_len i_range * range_len j_range in
  draw values <~ lists (integers None None) size size;
  let items := dict_from_items
                 (zip (product (range_list i_range) (range_list j_range)) values) in
  ret (MkItems2D i_range j_range items).

End Strategies.

(** ** segpy/catalog.py, from its specified contract *)

Module Catalog.

(** Modelled from the spec: a key of a mapping handed to the builder, an
    integer or a pair of integers. *)
Inductive key :=
| Key1 (i : Z)
| Key2 (i j : Z).

Global Instance key_eq_dec : EqDecision key.
Proof. solve_decision. Defined.

Global Instance key_countable : Countable key.
Proof.
  refine (inj_countable'
            (λ k, match k with Key1 i => inl i | Key2 i j => inr (i, j) end)
            (λ x, match x with inl i => Key1 i | inr (i, j) => Key2 i j end) _).
  intros []; reflexivity.
Defined.

(** Modelled from the spec: a value of a mapping, an integer, or any other
    object (here by its rendering), which no regularity class accepts. *)
Inductive value :=
| IntValue (v : Z)
| OtherValue (s : string).

Global Instance value_eq_dec : EqDecision value.
Proof. solve_decision. Defined.

(** Modelled from the spec: the Catalog of [segpy/catalog.py], whose source
    is not at hand, as the sum of its five representation classes:
    a constant over regular keys, regular keys with a dense list of values,
    a linear regular mapping, a two-dimensional linear regular mapping over
    the cross product of two key ranges, and the copy of the mapping. *)
Inductive catalog :=
| RegularConstantCatalog (key_range : range) (v : Z)
| RegularCatalog (key_range : range) (values : list Z)
| LinearRegularCatalog (key_start key_step value_start value_step count : Z)
| LinearRegularCatalog2D (i_range j_range : range) (a b c : Z)
| DictionaryCatalog (mapping : gmap key value).

(** Modelled from the spec: lookup of a key in a Catalog, [None] when the
    key is absent.  Class 1 is membership in the range and the constant;
    class 2 indexes the values by [(key - start) / step]; class 3 is the
    affine evaluation [value_start + ((key - start) / step) * value_step];
    class 4 is [a*i + b*j + c] on the cross product; class 5 is the lookup
    in the stored mapping. *)
Definition catalog_lookup (c : catalog) (k : key) : option value :=
  match c, k with
  | RegularConstantCatalog r v, Key1 i =>
      if range_contains r i then Some (IntValue v) else None
  | RegularCatalog r values, Key1 i =>
      if range_contains r i
      then IntValue <$> values !! Z.to_nat ((i - start r) `div` step r)
      else None
  | LinearRegularCatalog key_start key_step value_start value_step count, Key1 i =>
      let index := (i - key_start) `div` key_step in
      if bool_decide ((i - key_start) `mod` key_step = 0 ∧ 0 ≤ index < count)
      then Some (IntValue (value_start + index * value_step))
      else None
  | LinearRegularCatalog2D ir jr a b c, Key2 i j =>
      if range_contains ir i && range_contains jr j
      then Some (IntValue (a * i + b * j + c))
      else None
  | DictionaryCatalog mapping, k => mapping !! k
  | _, _ => None
  end.

(** Modelled from the spec: [catalog[key]], which fails with a
    Key-Not-Found condition when the key is absent. *)
Definition catalog_getitem (c : catalog) (k : key) : result value :=
  match catalog_lookup c k with
  | Some v => Ok v
  | None => Raised (KeyError "key not found")
  end.

(** Modelled from the spec: the enumeration [catalog.items()] of all
    (key, value) pairs. *)
Definition catalog_items (c : catalog) : list (key * value) :=
  match c with
  | RegularConstantCatalog r v =>
      (λ i, (Key1 i, IntValue v)) <$> range_list r
  | RegularCatalog r values =>
      zip_with (λ i v, (Key1 i, IntValue v)) (range_list r) values
  | LinearRegularCatalog key_start key_step value_start value_step count =>
      (λ index, (Key1 (key_start + index * key_step),
                 IntValue (value_start + index * value_step))) <$> seqZ 0 count
  | LinearRegularCatalog2D ir jr a b c =>
      (λ ij, (Key2 ij.1 ij.2, IntValue (a * ij.1 + b * ij.2 + c)))
        <$> product (range_list ir) (range_list jr)
  | DictionaryCatalog mapping => map_to_list mapping
  end.

(** Modelled from the spec: the items of a mapping whose keys are all
    integers and whose values are all integers, or [None]. *)
Definition items_1d (items : list (key * value)) : option (list (Z * Z)) :=
  mapM (λ kv, match kv with
              | (Key1 i, IntValue v) => Some (i, v)
              | _ => None
              end) items.

(** Modelled from the spec: the items of a mapping whose keys are all
    pairs and whose values are all integers, or [None]. *)
Definition items_2d (items : list (key * value)) : option (list ((Z * Z) * Z)) :=
  mapM (λ kv, match kv with
              | (Key2 i j, IntValue v) => Some ((i, j), v)
              | _ => None
              end) items.

(** Modelled from the spec: the order of the items by key. *)
Definition key_le (a b : Z * Z) : Prop := a.1 ≤ b.1.

Global Instance key_le_dec : RelDecision key_le.
Proof. intros a b. unfold key_le. apply _. Defined.

Definition sort_by_key (items : list (Z * Z)) : list (Z * Z) :=
  merge_sort key_le items.

(** Modelled from the spec: the range of which the sorted keys are exactly
    the elements, when they form one arithmetic progression; a single key
    is the range of that key with step one. *)
Definition progression (keys : list Z) : option range :=
  match keys with
  | [] => None
  | [k] => Some (Range k (k + 1) 1)
  | k0 :: k1 :: _ =>
      let r := Range k0 (k0 + Z.of_nat (length keys) * (k1 - k0)) (k1 - k0) in
      if bool_decide (k1 - k0 ≠ 0 ∧ keys = range_list r) then Some r else None
  end.

(** Modelled from the spec: the values [value_start + index * value_step]
    of a linear mapping, by key index. *)
Definition linear_values (value_start value_step count : Z) : list Z :=
  (λ index, value_start + index * value_step) <$> seqZ 0 count.

(** Modelled from the spec: an affine coefficient from two corner values,
    zero along a single key. *)
Definition slope (first last v_first v_last : Z) : Z :=
  if decide (last = first) then 0 else (v_last - v_first) `div` (last - first).

(** Modelled from the spec: the class chosen for integer keys with integer
    values.  Keys in one arithmetic progression give class 1 when the
    values are all the same, else class 3 when the values are linear in the
    key index, else class 2; other key sets give class 5. *)
Definition create_1d (mapping : gmap key value) (items : list (Z * Z)) : catalog :=
  let items := sort_by_key items in
  let values := items.*2 in
  match progression items.*1, values with
  | Some r, v0 :: rest =>
      if bool_decide (Forall (eq v0) rest) then RegularConstantCatalog r v0
      else
        let value_step := default v0 (head rest) - v0 in
        let count := Z.of_nat (length values) in
        if bool_decide (values = linear_values v0 value_step count)
        then LinearRegularCatalog (start r) (step r) v0 value_step count
        else RegularCatalog r values
  | _, _ => DictionaryCatalog mapping
  end.

(** Modelled from the spec: the class chosen for pair keys with integer
    values.  Keys that are the full cross product of two arithmetic
    progressions, with values [a*i + b*j + c] for the coefficients derived
    from the corner values, give class 4; anything else gives class 5. *)
Definition create_2d (mapping : gmap key value) (items : list ((Z * Z) * Z)) : catalog :=
  let i_keys := merge_sort Z.le (remove_dups (items.*1.*1)) in
  let j_keys := merge_sort Z.le (remove_dups (items.*1.*2)) in
  match progression i_keys, progression j_keys with
  | Some ir, Some jr =>
      if bool_decide (length items = (length i_keys * length j_keys)%nat) then
        let i0 := default 0 (head i_keys) in
        let i1 := default 0 (last i_keys) in
        let j0 := default 0 (head j_keys) in
        let j1 := default 0 (last j_keys) in
        match dict_get (i0, j0) items, dict_get (i1, j0) items,
              dict_get (i0, j1) items with
        | Some v00, Some v10, Some v01 =>
            let a := slope i0 i1 v00 v10 in
            let b := slope j0 j1 v00 v01 in
            let c := v00 - a * i0 - b * j0 in
            if bool_decide (Forall (λ kv, kv.2 = a * kv.1.1 + b * kv.1.2 + c) items)
            then LinearRegularCatalog2D ir jr a b c
            else DictionaryCatalog mapping
        | _, _, _ => DictionaryCatalog mapping
        end
      else DictionaryCatalog mapping
  | _, _ => DictionaryCatalog mapping
  end.

(** Modelled from the spec: [CatalogBuilder(mapping).create()].  The key
    set is analysed once: integer keys that form one arithmetic progression
    give the constant class when every value is the same, else the linear
    class when the values are an arithmetic progression in the key index,
    else the class of regular keys with a list of values; pair keys that
    span the full cross product of two progressions give the
    two-dimensional linear class when the values are affine; a value that
    is not an integer, an irregular key set or the empty mapping give the
    copy of the mapping.  Detection is exact. *)
Definition create (mapping : gmap key value) : catalog :=
  let items := map_to_list mapping in
  match items_1d items with
  | Some items1 => create_1d mapping items1
  | None =>
      match items_2d items with
      | Some items2 => create_2d mapping items2
      | None => DictionaryCatalog mapping
      end
  end.

End Catalog.

(** ** Notions used by the statements and their proofs *)

(** A line of [n] NUL characters. *)
Definition nul_line (n : Z) : string :=
  String.string_of_list_ascii (replicate (Z.to_nat n) (Ascii.ascii_of_nat 0)).

(** The code points of the characters of a string. *)
Definition code_points (s : string) : list Z :=
  ord <$> String.list_ascii_of_string s.

(** A string of printable 7-bit ASCII characters only. *)
Definition printable (s : string) : Prop :=
  Forall (λ c, 32 ≤ c ≤ 126) (code_points s).

(** Ranges of step one laid out in increasing order from a lower bound:
    each starts at or after the stop of the one before it. *)
Fixpoint chained (bound : Z) (rs : list range) : Prop :=
  match rs with
  | [] => True
  | r :: rs' =>
      step r = 1 ∧ bound ≤ start r ∧ start r ≤ stop r ∧ chained (stop r) rs'
  end.

(** A value of the domain that a value type describes. *)
Definition in_domain (t : Strategies.value_type) (v : Z) : Prop :=
  match t with
  | Strategies.Enumerated VALUES => v ∈ VALUES
  | Strategies.Bounded MINIMUM MAXIMUM => MINIMUM ≤ v ≤ MAXIMUM
  end.

(** What a header field may hold: the value that the keyword arguments fix
    for it, or else a value of the domain of its declared type. *)
Definition field_value_ok {instance} (cls : Strategies.header_class instance)
    (kwargs : list (string * Z)) (name : string) (v : Z) : Prop :=
  match dict_get name kwargs with
  | Some fixed => v = fixed
  | None => ∃ t, dict_get name (Strategies.class_fields cls) = Some t ∧ in_domain t v
  end.

(** A Catalog whose ranges have a step and whose list of values has one
    value per key. *)
Definition catalog_wf (c : Catalog.catalog) : Prop :=
  match c with
  | Catalog.RegularConstantCatalog r _ => step r ≠ 0
  | Catalog.RegularCatalog r values =>
      step r ≠ 0 ∧ length values = length (range_list r)
  | Catalog.LinearRegularCatalog _ key_step _ _ _ => key_step ≠ 0
  | Catalog.LinearRegularCatalog2D ir jr _ _ _ => step ir ≠ 0 ∧ step jr ≠ 0
  | Catalog.DictionaryCatalog _ => True
  end.

(** The item of a mapping for an integer key and an integer value, and for
    a pair key and an integer value. *)
Definition item_1d (kv : Z * Z) : Catalog.key * Catalog.value :=
  (Catalog.Key1 kv.1, Catalog.IntValue kv.2).

Definition item_2d (kv : (Z * Z) * Z) : Catalog.key * Catalog.value :=
  (Catalog.Key2 kv.1.1 kv.1.2, Catalog.IntValue kv.2).

(** The keyword names of [kwargs] that a header class does not declare, in
    the order of the keyword arguments. *)
Definition undeclared {instance} (cls : Strategies.header_class instance)
    (kwargs : list (string * Z)) : list string :=
  filter (λ name, name ∉ Strategies.ordered_field_names cls) (dict_keys kwargs).

(** Ranges of step one whose lengths and whose gaps (from a bound to the
    first start, and from each stop to the next start) lie between [lo]
    and [hi]. *)
Fixpoint spaced (lo hi bound : Z) (rs : list range) : Prop :=
  match rs with
  | [] => True
  | r :: rs' =>
      step r = 1
      ∧ lo ≤ start r - bound ≤ hi
      ∧ lo ≤ stop r - start r ≤ hi
      ∧ spaced lo hi (stop r) rs'
  end.

(** A strategy that, reading exactly the given choices, draws the value. *)
Definition draws_with {A} (s : Strategy A) (choices : list Z) (a : A) : Prop :=
  ∀ rest, s (choices ++ rest) = Drawn a rest.

(** * Properties *)

Import Datatypes.

(** ** The sample-format registry *)

(** Case analysis on a lookup in a dictionary given by its items. *)
Ltac dict_cases H :=
  cbn in H;
  repeat (rewrite lookup_insert in H; case_decide; [simplify_eq | ]);
  try (rewrite lookup_empty in H; discriminate H).

(** C6: the table from sample-format codes to types is injective, its
    domain is the codes 1, 2, 3, 5 and 8, and the derived table from types
    to codes is its inverse on both sides. *)
Theorem sample_format_tables_inverse :
  (∀ c1 c2 t,
     DATA_SAMPLE_FORMAT_TO_SEG_Y_TYPE !! c1 = Some t →
     DATA_SAMPLE_FORMAT_TO_SEG_Y_TYPE !! c2 = Some t → c1 = c2)
  ∧ (∀ c, is_Some (DATA_SAMPLE_FORMAT_TO_SEG_Y_TYPE !! c) ↔ c ∈ [1; 2; 3; 5; 8])
  ∧ (∀ c t,
       DATA_SAMPLE_FORMAT_TO_SEG_Y_TYPE !! c = Some t →
       SEG_Y_TYPE_TO_DATA_SAMPLE_FORMAT !! t = Some c)
  ∧ (∀ t c,
       SEG_Y_TYPE_TO_DATA_SAMPLE_FORMAT !! t = Some c →
       DATA_SAMPLE_FORMAT_TO_SEG_Y_TYPE !! c = Some t).
Proof.
  split_and!.
  - intros c1 c2 t H1 H2.
    unfold DATA_SAMPLE_FORMAT_TO_SEG_Y_TYPE, dict_of_items in H1, H2.
    dict_cases H1; dict_cases H2; done.
  - intros c. split.
    + intros [t H]. unfold DATA_SAMPLE_FORMAT_TO_SEG_Y_TYPE, dict_of_items in H.
      dict_cases H; set_solver.
    + intros Hc. repeat (apply elem_of_cons in Hc as [->|Hc]; [by eexists|]).
      by apply elem_of_nil in Hc.
  - intros c t H. unfold DATA_SAMPLE_FORMAT_TO_SEG_Y_TYPE, dict_of_items in H.
    dict_cases H; done.
  - intros t c H. unfold SEG_Y_TYPE_TO_DATA_SAMPLE_FORMAT, dict_of_items in H.
    dict_cases H; done.
Qed.

(** C5: [size_in_bytes] returns the declared size for each of the eight
    registered tags; for any other tag it raises a [ValueError] whose
    message carries the rendering of the tag; and it raises exactly when the
    tag is not one of the eight. *)
Theorem size_in_bytes_spec (repr : string → string) :
  (size_in_bytes repr "i" = Ok 4 ∧ size_in_bytes repr "I" = Ok 4
   ∧ size_in_bytes repr "h" = Ok 2 ∧ size_in_bytes repr "H" = Ok 2
   ∧ size_in_bytes repr "b" = Ok 1 ∧ size_in_bytes repr "B" = Ok 1
   ∧ size_in_bytes repr "f" = Ok 4 ∧ size_in_bytes repr "ibm" = Ok 4)
  ∧ (∀ ctype, ctype ∉ ["i"; "I"; "h"; "H"; "b"; "B"; "f"; "ibm"] →
       size_in_bytes repr ctype
       = Raised (ValueError ("No such C-type " +:+ repr ctype)))
  ∧ (∀ ctype, is_raised (size_in_bytes repr ctype)
              ↔ ctype ∉ ["i"; "I"; "h"; "H"; "b"; "B"; "f"; "ibm"]).
Proof.
  assert (Hin : ∀ ctype, ctype ∈ ["i"; "I"; "h"; "H"; "b"; "B"; "f"; "ibm"] →
                         ∃ n, CTYPE_TO_SIZE !! ctype = Some n).
  { intros ctype Hc.
    repeat (apply elem_of_cons in Hc as [->|Hc]; [by eexists|]).
    by apply elem_of_nil in Hc. }
  assert (Hout : ∀ ctype, ctype ∉ ["i"; "I"; "h"; "H"; "b"; "B"; "f"; "ibm"] →
                          CTYPE_TO_SIZE !! ctype = None).
  { intros ctype Hc. destruct (CTYPE_TO_SIZE !! ctype) as [n|] eqn:H; [|done].
    exfalso. apply Hc. unfold CTYPE_TO_SIZE, dict_of_items in H.
    dict_cases H; set_solver. }
  split_and!; try reflexivity.
  - intros ctype Hc. unfold size_in_bytes. by rewrite (Hout _ Hc).
  - intros ctype. unfold size_in_bytes. split.
    + intros Hr Hc. destruct (Hin _ Hc) as [n Hn]. by rewrite Hn in Hr.
    + intros Hc. by rewrite (Hout _ Hc).
Qed.

(** C4, as stated: every wire tag of the table is a single character.  The
    tag of [ibm] is the three characters [ibm]. *)
Lemma wire_tag_single_character_fails :
  ¬ (∀ t c, SEG_Y_TYPE_TO_CTYPE !! t = Some c → String.length c = 1%nat).
Proof. intros H. specialize (H "ibm" "ibm" eq_refl). discriminate H. Qed.

(** C4, amended: the table has exactly the eight type names; the tag of
    every type other than [ibm] is a single character, and the tag of
    [ibm] is the three-character string [ibm]. *)
Theorem wire_tag_lengths :
  (∀ t, is_Some (SEG_Y_TYPE_TO_CTYPE !! t)
        ↔ t ∈ ["int32"; "uint32"; "int16"; "uint16"; "int8"; "uint8";
               "float32"; "ibm"])
  ∧ (∀ t c, SEG_Y_TYPE_TO_CTYPE !! t = Some c →
            if decide (t = "ibm") then c = "ibm"
            else String.length c = 1%nat).
Proof.
  split.
  - intros t. split.
    + intros [c H]. unfold SEG_Y_TYPE_TO_CTYPE, dict_of_items in H.
      dict_cases H; set_solver.
    + intros Ht. repeat (apply elem_of_cons in Ht as [->|Ht]; [by eexists|]).
      by apply elem_of_nil in Ht.
  - intros t c H. unfold SEG_Y_TYPE_TO_CTYPE, dict_of_items in H.
    dict_cases H; done.
Qed.

(** ** Ranges *)

Lemma range_len_nonneg r : 0 ≤ range_len r.
Proof.
  unfold range_len. repeat case_decide; try lia.
  - pose proof (Z.div_pos (stop r - start r - 1) (step r)). lia.
  - pose proof (Z.div_pos (start r - stop r - 1) (- step r)). lia.
Qed.

Lemma elem_of_range_list r k :
  k ∈ range_list r ↔ ∃ i, 0 ≤ i < range_len r ∧ k = start r + i * step r.
Proof.
  unfold range_list. rewrite list_elem_of_fmap. split.
  - intros (i & -> & Hi). apply elem_of_seqZ in Hi. exists i. split; [lia|done].
  - intros (i & Hi & ->). exists i. split; [done|]. apply elem_of_seqZ. lia.
Qed.

Lemma length_range_list r : length (range_list r) = Z.to_nat (range_len r).
Proof. unfold range_list. by rewrite length_fmap, length_seqZ. Qed.

Lemma lookup_range_list r (i : nat) :
  (i < Z.to_nat (range_len r))%nat →
  range_list r !! i = Some (start r + Z.of_nat i * step r).
Proof.
  intros Hi. unfold range_list. rewrite list_lookup_fmap, lookup_seqZ_lt by lia.
  simpl. by rewrite Z.add_0_l.
Qed.

(** The elements of a range with a positive step. *)
Lemma range_index_pos r i :
  0 < step r → (0 ≤ i < range_len r ↔ 0 ≤ i ∧ start r + i * step r < stop r).
Proof.
  intros Hs. unfold range_len. rewrite decide_True by done.
  case_decide as Hlt.
  - split.
    + intros [H0 Hi]. split; [done|].
      assert (i ≤ (stop r - start r - 1) `div` step r) as Hle by lia.
      pose proof (Z.mul_div_le (stop r - start r - 1) (step r) Hs). nia.
    + intros [H0 Hi]. split; [done|].
      assert (i ≤ (stop r - start r - 1) `div` step r); [|lia].
      apply Z.div_le_lower_bound; [done|]. nia.
  - split; [lia|]. intros [H0 Hi]. nia.
Qed.

(** The elements of a range with a negative step. *)
Lemma range_index_neg r i :
  step r < 0 → (0 ≤ i < range_len r ↔ 0 ≤ i ∧ stop r < start r + i * step r).
Proof.
  intros Hs. unfold range_len. rewrite decide_False by lia.
  rewrite decide_True by done.
  case_decide as Hlt.
  - split.
    + intros [H0 Hi]. split; [done|].
      assert (i ≤ (start r - stop r - 1) `div` (- step r)) as Hle by lia.
      pose proof (Z.mul_div_le (start r - stop r - 1) (- step r)). nia.
    + intros [H0 Hi]. split; [done|].
      assert (i ≤ (start r - stop r - 1) `div` (- step r)); [|lia].
      apply Z.div_le_lower_bound; [lia|]. nia.
  - split; [lia|]. intros [H0 Hi]. nia.
Qed.

Lemma range_index r i :
  step r ≠ 0 →
  (0 ≤ i < range_len r ↔
   0 ≤ i ∧ if decide (0 < step r) then start r + i * step r < stop r
           else stop r < start r + i * step r).
Proof.
  intros Hs. case_decide.
  - by apply range_index_pos.
  - apply range_index_neg. lia.
Qed.

(** [len(range(start, start + step * length, step))] is [length]. *)
Lemma range_len_stepped a n s :
  0 ≤ n → s ≠ 0 → range_len (Range a (a + s * n) s) = n.
Proof.
  intros Hn Hs.
  pose proof (range_len_nonneg (Range a (a + s * n) s)) as Hlen.
  pose proof (range_index (Range a (a + s * n) s) (n - 1) Hs) as H1.
  pose proof (range_index (Range a (a + s * n) s) n Hs) as H2.
  simpl in *. case_decide; nia.
Qed.

(** [k in r] holds exactly of the elements of [list(r)]. *)
Lemma range_contains_spec r k :
  step r ≠ 0 → range_contains r k = true ↔ k ∈ range_list r.
Proof.
  intros Hs. rewrite elem_of_range_list. unfold range_contains.
  rewrite andb_true_iff, bool_decide_eq_true. split.
  - intros [Hb Hmod]. exists ((k - start r) `div` step r).
    pose proof (Z_div_exact_full_2 _ _ Hs Hmod) as Hk.
    split; [|lia]. apply range_index; [done|].
    case_decide; apply bool_decide_eq_true in Hb;
      (split; [|lia]); nia.
  - intros (i & Hi & ->). apply range_index in Hi as [H0 Hi]; [|done]. split.
    + case_decide; apply bool_decide_eq_true; nia.
    + replace (start r + i * step r - start r) with (i * step r) by lia.
      by apply Z_mod_mult.
Qed.

(** The index [(k - start) / step] of an element of a range. *)
Lemma range_list_index r k :
  step r ≠ 0 → k ∈ range_list r →
  range_list r !! Z.to_nat ((k - start r) `div` step r) = Some k.
Proof.
  intros Hs (i & Hi & ->)%elem_of_range_list.
  replace (start r + i * step r - start r) with (i * step r) by lia.
  rewrite Z.div_mul by done. rewrite lookup_range_list by lia.
  do 2 f_equal. lia.
Qed.

Lemma NoDup_range_list r : step r ≠ 0 → NoDup (range_list r).
Proof.
  intros Hs. unfold range_list. apply NoDup_fmap_2; [|apply NoDup_seqZ].
  intros i j Hij. nia.
Qed.

(** ** Strategies: what a draw tells *)

Lemma bind_Drawn {A B} (s : Strategy A) (f : A → Strategy B) src b rest :
  bind s f src = Drawn b rest ↔
  ∃ a mid, s src = Drawn a mid ∧ f a mid = Drawn b rest.
Proof.
  unfold bind. destruct (s src) as [a mid| |]; split;
    try done; try (intros (? & ? & ? & ?); done).
  - intros Hf. by exists a, mid.
  - intros (a' & mid' & [= -> ->] & Hf). done.
Qed.

Lemma ret_Drawn {A} (a b : A) src rest :
  ret a src = Drawn b rest ↔ b = a ∧ rest = src.
Proof. unfold ret. split; [by intros [= -> ->]|by intros [-> ->]]. Qed.

Lemma lift_Drawn {A} (r : result A) a src rest :
  lift r src = Drawn a rest ↔ r = Ok a ∧ rest = src.
Proof.
  destruct r as [a'|e]; simpl; unfold ret, raise; split; try done.
  - by intros [= -> ->].
  - by intros [[= ->] ->].
  - by intros [? _].
Qed.

Lemma assume_Drawn (condition : bool) u src rest :
  assume condition src = Drawn u rest ↔ condition = true ∧ rest = src.
Proof.
  unfold assume. destruct condition; unfold ret, reject; split; try done.
  - by intros [= _ ->].
  - intros [_ ->]. by destruct u.
  - by intros [? _].
Qed.

Lemma integers_Drawn min_value max_value z src rest :
  integers min_value max_value src = Drawn z rest ↔
  src = z :: rest ∧ in_bounds min_value max_value z = true.
Proof.
  unfold integers. destruct src as [|z' src'].
  - split; [done|]. by intros [? _].
  - destruct (in_bounds min_value max_value z') eqn:Hb; split.
    + by intros [= -> ->].
    + by intros [[= -> ->] _].
    + done.
    + intros [[= -> ->] Hz]. congruence.
Qed.

Lemma in_bounds_Some lo hi z : in_bounds (Some lo) (Some hi) z = true ↔ lo ≤ z ≤ hi.
Proof.
  unfold in_bounds. simpl. rewrite andb_true_iff, !bool_decide_eq_true. lia.
Qed.

Lemma in_bounds_lower lo hi z : in_bounds (Some lo) hi z = true → lo ≤ z.
Proof.
  unfold in_bounds. simpl. rewrite andb_true_iff, !bool_decide_eq_true. tauto.
Qed.

Lemma draw_n_Drawn {A} (elements : Strategy A) n src l rest :
  draw_n elements n src = Drawn l rest →
  length l = n ∧ Forall (produces elements) l.
Proof.
  revert src l. induction n as [|n IH]; intros src l; simpl.
  - intros [-> ->]%ret_Drawn. by split.
  - intros (x & mid & Hx & (xs & mid' & Hxs & [-> ->]%ret_Drawn)%bind_Drawn)%bind_Drawn.
    apply IH in Hxs as [<- Hall]. split; [done|].
    constructor; [by exists src, mid|done].
Qed.

Lemma lists_Drawn {A} (elements : Strategy A) min_size max_size src l rest :
  lists elements min_size max_size src = Drawn l rest →
  min_size ≤ Z.of_nat (length l) ≤ max_size ∧ Forall (produces elements) l.
Proof.
  unfold lists.
  intros (n & mid & [_ Hn%in_bounds_Some]%integers_Drawn
          & (u & mid' & [H0%bool_decide_eq_true ->]%assume_Drawn & Hd)%bind_Drawn)%bind_Drawn.
  apply draw_n_Drawn in Hd as [Hlen Hall]. split; [lia|done].
Qed.

Lemma produces_integers min_value max_value z :
  produces (integers min_value max_value) z ↔ in_bounds min_value max_value z = true.
Proof.
  split.
  - intros (src & rest & [_ H]%integers_Drawn). done.
  - intros H. exists [z], []. by apply integers_Drawn.
Qed.

Lemma produces_just {A} (v a : A) : produces (just v) a ↔ a = v.
Proof.
  split.
  - intros (src & rest & [-> _]%ret_Drawn). done.
  - intros ->. by exists [], [].
Qed.

Lemma produces_sampled_from {A} (xs : list A) a :
  produces (sampled_from xs) a → a ∈ xs.
Proof.
  intros (src & rest & (i & mid & _ & Hx)%bind_Drawn).
  destruct (xs !! Z.to_nat i) as [x|] eqn:Hi; [|done].
  apply ret_Drawn in Hx as [-> _]. by eapply list_elem_of_lookup_2.
Qed.

Lemma fixed_dictionaries_Drawn {K V} (d : list (K * Strategy V)) src kvs rest :
  fixed_dictionaries d src = Drawn kvs rest →
  Forall2 (λ ks kv, ks.1 = kv.1 ∧ produces ks.2 kv.2) d kvs.
Proof.
  revert src kvs. induction d as [|[k s] d IH]; intros src kvs; simpl.
  - intros [-> _]%ret_Drawn. constructor.
  - intros H. apply bind_Drawn in H as (v & mid & Hv & H).
    apply bind_Drawn in H as (kvs' & mid' & Hd & H).
    apply ret_Drawn in H as [-> ->].
    constructor; [|by eapply IH]. split; [done|]. by exists src, mid.
Qed.

(** ** The range generator *)

Import Strategies.

(** C8: without a configured minimum length the minimum is zero; a
    configured maximum length below the minimum makes every draw raise a
    [ValueError]; and no drawn range has a zero step. *)
Theorem ranges_spec
    (min_start_value max_start_value min_size max_size
     min_step_value max_step_value : option Z) :
  ranges min_start_value max_start_value None max_size
         min_step_value max_step_value
  = ranges min_start_value max_start_value (Some 0) max_size
           min_step_value max_step_value
  ∧ (∀ bound, max_size = Some bound → bound < default 0 min_size →
       ∀ src, ∃ msg,
         ranges min_start_value max_start_value min_size max_size
                min_step_value max_step_value src
         = Failed (ValueError msg))
  ∧ (∀ src r rest,
       ranges min_start_value max_start_value min_size max_size
              min_step_value max_step_value src = Drawn r rest →
       step r ≠ 0).
Proof.
  split_and!.
  - reflexivity.
  - intros bound -> Hlt src. unfold ranges. case_decide.
    + by eexists.
    + unfold bind. rewrite decide_True by done. by eexists.
  - intros src r rest. unfold ranges. case_decide as Hmin; [done|].
    intros H. apply bind_Drawn in H as (u & src0 & _ & H).
    apply bind_Drawn in H as (start & src1 & _ & H).
    apply bind_Drawn in H as (length & src2 & _ & H).
    apply bind_Drawn in H as (step & src3 & _ & H).
    apply bind_Drawn in H as (u' & src4 & Hstep & H).
    apply assume_Drawn in Hstep as [Hstep%bool_decide_eq_true _].
    apply lift_Drawn in H as [H _]. unfold py_range in H.
    rewrite decide_False in H by done. by injection H as <-.
Qed.

(** What a drawn range is made of: its start, its length within the
    configured sizes, and its step within the configured bounds. *)
Lemma ranges_Drawn min_start_value max_start_value min_size max_size
    min_step_value max_step_value src r rest :
  ranges min_start_value max_start_value min_size max_size
         min_step_value max_step_value src = Drawn r rest →
  ∃ length,
    in_bounds (Some (default 0 min_size)) max_size length = true
    ∧ 0 ≤ default 0 min_size
    ∧ in_bounds min_step_value max_step_value (step r) = true
    ∧ step r ≠ 0
    ∧ stop r = start r + step r * length.
Proof.
  unfold ranges. case_decide as Hmin; [done|].
  intros H. apply bind_Drawn in H as (u & src0 & _ & H).
  apply bind_Drawn in H as (start & src1 & _ & H).
  apply bind_Drawn in H as (length & src2 & [_ Hlen]%integers_Drawn & H).
  apply bind_Drawn in H as (step & src3 & [_ Hst]%integers_Drawn & H).
  apply bind_Drawn in H as (u' & src4 & Hstep & H).
  apply assume_Drawn in Hstep as [Hstep%bool_decide_eq_true _].
  apply lift_Drawn in H as [H _]. unfold py_range in H.
  rewrite decide_False in H by done. injection H as <-.
  exists length. simpl. split_and!; try done. lia.
Qed.

(** ** The multi-line text generator *)

Lemma decode_ascii_zeros n :
  decode_ascii (replicate n Byte.x00)
  = Ok (String.string_of_list_ascii (replicate n (Ascii.ascii_of_nat 0))).
Proof. induction n as [|n IH]; [done|]. simpl. by rewrite IH. Qed.

Lemma decoded_lines_nul xs :
  Forall (λ x, 0 ≤ x) xs → decoded_lines xs = Ok (nul_line <$> xs).
Proof.
  unfold decoded_lines. induction 1 as [|x xs Hx _ IH]; [done|].
  simpl. unfold bytes at 1. rewrite decide_False by lia.
  by rewrite decode_ascii_zeros, IH.
Qed.

(** C2, on the code: a drawn text is the newline-join of between
    [min_num_lines] and [max_num_lines] lines, and the line made from the
    drawn integer [x], between 32 and 127, is [x] NUL characters: [x] is
    taken as the length of the line, not as a code point. *)
Theorem multiline_text_lines_are_nul min_num_lines max_num_lines src s rest :
  multiline_ascii_encodable_text min_num_lines max_num_lines src = Drawn s rest →
  ∃ xs, min_num_lines ≤ Z.of_nat (length xs) ≤ max_num_lines
        ∧ Forall (λ x, 32 ≤ x ≤ 127) xs
        ∧ s = join newline (nul_line <$> xs).
Proof.
  unfold multiline_ascii_encodable_text, smap_raising, flatmap.
  intros H. apply bind_Drawn in H as (xs & src1 & H & Hs).
  apply bind_Drawn in H as (n & src0 & [_ Hn%in_bounds_Some]%integers_Drawn & H).
  apply lists_Drawn in H as [Hlen Hall].
  assert (Forall (λ x, 32 ≤ x ≤ 127) xs) as Hxs.
  { eapply Forall_impl; [exact Hall|]. intros x Hx.
    apply produces_integers in Hx. by apply in_bounds_Some in Hx. }
  exists xs. split_and!; [lia|lia|done|].
  rewrite decoded_lines_nul in Hs.
  - by apply lift_Drawn in Hs as [[= ->] _].
  - eapply Forall_impl; [exact Hxs|]. simpl. lia.
Qed.

(** C2 at a concrete draw: one line, from the integer 32. *)
Lemma multiline_text_lines_are_nul_witness :
  ∃ xs, 1 ≤ Z.of_nat (length xs) ≤ 1
        ∧ Forall (λ x, 32 ≤ x ≤ 127) xs
        ∧ nul_line 32 = join newline (nul_line <$> xs).
Proof.
  exact (multiline_text_lines_are_nul 1 1 [1; 1; 32] (nul_line 32) [] eq_refl).
Defined.

(** C2, the failing draw: the text drawn from the source [1; 1; 32] is 32
    NUL characters, none of them printable. *)
Lemma multiline_text_not_printable :
  multiline_ascii_encodable_text 1 1 [1; 1; 32] = Drawn (nul_line 32) []
  ∧ code_points (nul_line 32) = replicate 32 0
  ∧ ¬ printable (nul_line 32).
Proof.
  split_and!; [reflexivity|reflexivity|].
  intros H. apply Forall_cons_1 in H as [H _]. vm_compute in H.
  destruct H as [H _]. by apply H.
Qed.

(** ** The spaced-ranges generator *)

Lemma chained_elem bound rs r :
  chained bound rs → r ∈ rs → step r = 1 ∧ bound ≤ start r ∧ start r ≤ stop r.
Proof.
  revert bound. induction rs as [|r0 rs IH]; intros bound; simpl.
  - intros _ Hr. by apply elem_of_nil in Hr.
  - intros (Hs & Hb & Hle & Hc) [->|Hr]%elem_of_cons; [done|].
    destruct (IH _ Hc Hr) as (? & ? & ?). split_and!; [done|lia|done].
Qed.

Lemma chained_pairwise bound rs (i j : nat) r1 r2 :
  chained bound rs → (i < j)%nat →
  rs !! i = Some r1 → rs !! j = Some r2 → stop r1 ≤ start r2.
Proof.
  revert bound i j. induction rs as [|r rs IH]; intros bound i j; [done|].
  simpl. intros (Hs & Hb & Hle & Hc) Hij H1 H2.
  destruct j as [|j]; [lia|]. simpl in H2. destruct i as [|i].
  - injection H1 as ->. apply list_elem_of_lookup_2 in H2.
    by destruct (chained_elem _ _ _ Hc H2) as (_ & ? & _).
  - simpl in H1. eapply (IH _ i j); [done|lia|done|done].
Qed.

Lemma elem_of_range_list_unit_step r k :
  step r = 1 → k ∈ range_list r ↔ start r ≤ k < stop r.
Proof.
  intros Hs. rewrite <- range_contains_spec by lia. unfold range_contains.
  rewrite Hs, decide_True by lia. rewrite Z.mod_1_r.
  rewrite andb_true_iff, !bool_decide_eq_true. tauto.
Qed.

Lemma length_accumulate_from total l : length (accumulate_from total l) = length l.
Proof. revert total. induction l as [|x l IH]; intros total; simpl; [done|]. by rewrite IH. Qed.

Lemma accumulate_from_zero l : accumulate l = accumulate_from 0 l.
Proof. by destruct l. Qed.

(** The running totals of non-negative intervals, taken two by two, are
    ranges laid out in increasing order. *)
Lemma ranges_of_running_totals (m : nat) :
  ∀ l total (fuel : nat),
    length l = (2 * m)%nat → (length l ≤ fuel)%nat → Forall (λ x, 0 ≤ x) l →
    ∃ rs, traverse range_of_args (batches fuel (accumulate_from total l) 2 None) = Ok rs
          ∧ length rs = m ∧ chained total rs.
Proof.
  induction m as [|m IH]; intros l total fuel Hlen Hfuel Hpos.
  - destruct l; [|done]. exists []. by destruct fuel.
  - destruct l as [|x [|y l]]; [done|simpl in Hlen; lia|].
    destruct fuel as [|fuel]; [simpl in Hfuel; lia|].
    apply Forall_cons_1 in Hpos as [Hx Hpos].
    apply Forall_cons_1 in Hpos as [Hy Hpos].
    destruct (IH l (total + x + y) fuel) as (rs & Hrs & Hn & Hc);
      [simpl in Hlen; lia|simpl in Hfuel; lia|done|].
    exists (Range (total + x) (total + x + y) 1 :: rs).
    split_and!.
    + simpl. rewrite drop_0. simpl in Hrs. by rewrite Hrs.
    + simpl. by rewrite Hn.
    + simpl. split_and!; [done|lia|lia|done].
Qed.

(** C9: with a non-negative minimum interval, the drawn ranges have step
    one and are pairwise disjoint in increasing order: each starts at or
    after the stop of the one before it; and their number lies between the
    configured minimum and maximum numbers of ranges. *)
Theorem spaced_ranges_disjoint_increasing
    min_num_ranges max_num_ranges min_interval max_interval src rs rest :
  0 ≤ min_interval →
  spaced_ranges min_num_ranges max_num_ranges min_interval max_interval src
  = Drawn rs rest →
  min_num_ranges ≤ Z.of_nat (length rs) ≤ max_num_ranges
  ∧ Forall (λ r, step r = 1 ∧ start r ≤ stop r) rs
  ∧ (∀ (i : nat) r1 r2,
       rs !! i = Some r1 → rs !! S i = Some r2 → stop r1 ≤ start r2)
  ∧ (∀ (i j : nat) r1 r2 k,
       (i < j)%nat → rs !! i = Some r1 → rs !! j = Some r2 →
       ¬ (k ∈ range_list r1 ∧ k ∈ range_list r2)).
Proof.
  intros Hmin. unfold spaced_ranges, smap_raising, smap, flatmap.
  intros H. apply bind_Drawn in H as (pairs & src4 & H & Hrs).
  apply lift_Drawn in Hrs as [Hrs _].
  apply bind_Drawn in H as (acc & src3 & H & Hpairs).
  apply lift_Drawn in Hpairs as [Hpairs _].
  apply bind_Drawn in H as (lst & src2 & H & [-> _]%ret_Drawn).
  apply bind_Drawn in H as (n & src1 & H & Hlst).
  apply bind_Drawn in H as (n0 & src0 & [_ Hn0%in_bounds_Some]%integers_Drawn
                            & [-> _]%ret_Drawn).
  apply lists_Drawn in Hlst as [Hlen Hall].
  unfold batched in Hpairs. rewrite decide_False in Hpairs by lia.
  injection Hpairs as <-.
  rewrite accumulate_from_zero, length_accumulate_from in Hrs.
  destruct (ranges_of_running_totals (Z.to_nat n0) lst 0 (length lst))
    as (rs' & Hrs' & Hn & Hc); [lia|lia| |].
  { eapply Forall_impl; [exact Hall|]. intros x Hx.
    apply produces_integers, in_bounds_Some in Hx. lia. }
  change (Z.to_nat 2) with 2%nat in Hrs.
  rewrite Hrs' in Hrs. injection Hrs as ->.
  split; [lia|]. split_and!.
  - apply Forall_forall. intros r Hr.
    by destruct (chained_elem _ _ _ Hc Hr) as (? & _ & ?).
  - intros i r1 r2 H1 H2. eapply (chained_pairwise _ _ i (S i)); [done|lia|done|done].
  - intros i j r1 r2 k Hij H1 H2 [Hk1 Hk2].
    pose proof (chained_pairwise _ _ _ _ _ _ Hc Hij H1 H2) as Hle.
    destruct (chained_elem _ _ _ Hc (list_elem_of_lookup_2 _ _ _ H1)) as (Hs1 & _).
    destruct (chained_elem _ _ _ Hc (list_elem_of_lookup_2 _ _ _ H2)) as (Hs2 & _).
    apply elem_of_range_list_unit_step in Hk1; [|done].
    apply elem_of_range_list_unit_step in Hk2; [|done]. lia.
Qed.

(** C9 at a concrete draw: two ranges, [range(1, 3)] and [range(6, 10)]. *)
Lemma spaced_ranges_disjoint_increasing_witness :
  1 ≤ Z.of_nat (length [Range 1 3 1; Range 6 10 1]) ≤ 3
  ∧ Forall (λ r, step r = 1 ∧ start r ≤ stop r) [Range 1 3 1; Range 6 10 1]
  ∧ (∀ (i : nat) r1 r2,
       [Range 1 3 1; Range 6 10 1] !! i = Some r1 →
       [Range 1 3 1; Range 6 10 1] !! S i = Some r2 → stop r1 ≤ start r2)
  ∧ (∀ (i j : nat) r1 r2 k,
       (i < j)%nat → [Range 1 3 1; Range 6 10 1] !! i = Some r1 →
       [Range 1 3 1; Range 6 10 1] !! j = Some r2 →
       ¬ (k ∈ range_list r1 ∧ k ∈ range_list r2)).
Proof.
  apply (spaced_ranges_disjoint_increasing 1 3 0 10 [2; 4; 1; 2; 3; 4] _ []).
  - lia.
  - reflexivity.
Defined.

(** ** Insertion-ordered dictionaries *)

Section PyDictFacts.
Context {K V : Type} `{EqDecision K}.
Implicit Types (d : list (K * V)) (k : K) (v : V).

Lemma dict_get_Some_elem d k v : dict_get k d = Some v → (k, v) ∈ d.
Proof.
  induction d as [|[k' v'] d IH]; simpl; [done|].
  case_decide as Hk; [intros [= ->]; subst; by left|].
  intros Hg. right. by apply IH.
Qed.

Lemma dict_get_is_Some d k : is_Some (dict_get k d) ↔ k ∈ dict_keys d.
Proof.
  unfold dict_keys. induction d as [|[k' v'] d IH]; simpl.
  - split; [by intros [? ?]|]. intros Hk. by apply elem_of_nil in Hk.
  - rewrite elem_of_cons. case_decide as Hk; [subst; split; eauto|].
    rewrite IH. split; [by right|]. by intros [?|?].
Qed.

Lemma dict_get_None d k : dict_get k d = None ↔ k ∉ dict_keys d.
Proof. rewrite <- dict_get_is_Some, eq_None_not_Some. done. Qed.

Lemma dict_get_set_eq d k v : dict_get k (dict_set k v d) = Some v.
Proof.
  induction d as [|[k' v'] d IH]; simpl.
  - by rewrite decide_True.
  - case_decide as Hk; simpl; [by rewrite decide_True|].
    by rewrite decide_False.
Qed.

Lemma dict_get_set_ne d k k' v :
  k' ≠ k → dict_get k' (dict_set k v d) = dict_get k' d.
Proof.
  intros Hne. induction d as [|[k0 v0] d IH]; simpl.
  - by rewrite decide_False.
  - case_decide as Hk; simpl.
    + subst. by rewrite !decide_False.
    + case_decide; [done|]. apply IH.
Qed.

Lemma dict_keys_set_old d k v :
  k ∈ dict_keys d → dict_keys (dict_set k v d) = dict_keys d.
Proof.
  unfold dict_keys. induction d as [|[k' v'] d IH]; simpl.
  - intros Hk. by apply elem_of_nil in Hk.
  - intros Hk. case_decide as Hkk; simpl; [by subst|].
    f_equal. apply IH. apply elem_of_cons in Hk as [?|?]; done.
Qed.

Lemma dict_keys_set_new d k v :
  k ∉ dict_keys d → dict_keys (dict_set k v d) = dict_keys d ++ [k].
Proof.
  unfold dict_keys. induction d as [|[k' v'] d IH]; simpl; [done|].
  intros Hk. apply not_elem_of_cons in Hk as [Hne Hk].
  rewrite decide_False by done. simpl. f_equal. by apply IH.
Qed.

Lemma elem_of_dict_keys_set d k k' v :
  k' ∈ dict_keys (dict_set k v d) ↔ k' = k ∨ k' ∈ dict_keys d.
Proof.
  destruct (decide (k ∈ dict_keys d)) as [Hk|Hk].
  - rewrite dict_keys_set_old by done. split; [by right|].
    intros [->|?]; done.
  - rewrite dict_keys_set_new, elem_of_app, list_elem_of_singleton by done. tauto.
Qed.

Lemma NoDup_dict_keys_set d k v :
  NoDup (dict_keys d) → NoDup (dict_keys (dict_set k v d)).
Proof.
  intros Hd. destruct (decide (k ∈ dict_keys d)) as [Hk|Hk].
  - by rewrite dict_keys_set_old.
  - rewrite dict_keys_set_new by done. apply NoDup_app. split_and!; [done| |].
    + intros x Hx ->%list_elem_of_singleton. done.
    + apply NoDup_singleton.
Qed.

(** A dictionary filled item by item, from any dictionary to start with. *)
Lemma elem_of_dict_keys_fill (items : list (K * V)) d k :
  k ∈ dict_keys (foldl (λ d kv, dict_set kv.1 kv.2 d) d items)
  ↔ k ∈ dict_keys d ∨ k ∈ items.*1.
Proof.
  revert d. induction items as [|[k' v'] items IH]; intros d; simpl.
  - split; [by left|]. intros [?|Hk]; [done|]. by apply elem_of_nil in Hk.
  - rewrite IH, elem_of_dict_keys_set, elem_of_cons. tauto.
Qed.

Lemma NoDup_dict_keys_fill (items : list (K * V)) d :
  NoDup (dict_keys d) →
  NoDup (dict_keys (foldl (λ d kv, dict_set kv.1 kv.2 d) d items)).
Proof.
  revert d. induction items as [|[k' v'] items IH]; intros d Hd; simpl; [done|].
  apply IH. by apply NoDup_dict_keys_set.
Qed.

Lemma elem_of_dict_from_items (items : list (K * V)) k :
  k ∈ dict_keys (dict_from_items items) ↔ k ∈ items.*1.
Proof.
  unfold dict_from_items. rewrite elem_of_dict_keys_fill.
  split; [|by right]. intros [Hk|?]; [|done]. by apply elem_of_nil in Hk.
Qed.

Lemma NoDup_dict_from_items (items : list (K * V)) :
  NoDup (dict_keys (dict_from_items items)).
Proof. apply NoDup_dict_keys_fill. constructor. Qed.

Lemma dict_get_pop_ne d k k' : k' ≠ k → dict_get k' (dict_pop k d) = dict_get k' d.
Proof.
  intros Hne. unfold dict_pop. induction d as [|[k0 v0] d IH]; [done|].
  rewrite filter_cons. simpl. case_decide as Hk0; simpl.
  - case_decide; [done|apply IH].
  - rewrite IH. simpl in Hk0. subst. by rewrite decide_False.
Qed.

Lemma elem_of_dict_keys_pop d k k' :
  k' ∈ dict_keys (dict_pop k d) ↔ k' ≠ k ∧ k' ∈ dict_keys d.
Proof.
  unfold dict_keys, dict_pop. rewrite !list_elem_of_fmap. split.
  - intros ([k0 v0] & -> & [Hne Hin]%list_elem_of_filter). split; [done|].
    by exists (k0, v0).
  - intros (Hne & [k0 v0] & -> & Hin). exists (k0, v0). split; [done|].
    by apply list_elem_of_filter.
Qed.

End PyDictFacts.

Lemma NoDup_product {A B} (xs : list A) (ys : list B) :
  NoDup xs → NoDup ys → NoDup (product xs ys).
Proof.
  intros Hxs Hys. unfold product. induction Hxs as [|x xs Hx Hxs IH]; simpl.
  - constructor.
  - apply NoDup_app. split_and!.
    + by apply (NoDup_fmap_2 (pair x)).
    + intros [x' y'] (y & [= -> ->] & Hy)%list_elem_of_fmap Hin.
      apply list_elem_of_In, in_prod_iff in Hin as [Hin _].
      by apply list_elem_of_In in Hin.
    + done.
Qed.

Lemma elem_of_product {A B} (xs : list A) (ys : list B) x y :
  (x, y) ∈ product xs ys ↔ x ∈ xs ∧ y ∈ ys.
Proof. unfold product. by rewrite !list_elem_of_In, in_prod_iff. Qed.

(** ** The 2-D item grid generator *)

(** C3, as stated: both ranges of a drawn grid have step exactly 1.  The
    step is drawn from the integers from 1 up, and may be 2. *)
Lemma items2d_step_not_one :
  ¬ (∀ i_size j_size src v rest,
       items2d i_size j_size src = Drawn v rest →
       step (i_range v) = 1 ∧ step (j_range v) = 1).
Proof.
  intros H.
  specialize (H 1 1 [0; 1; 2; 0; 1; 1; 1; 7]
                (MkItems2D (Range 0 2 2) (Range 0 1 1) [((0, 0), 7)]) []
                eq_refl).
  simpl in H. lia.
Qed.

Lemma ranges_nonempty max_bound src r rest :
  ranges None None (Some 1) (Some max_bound) (Some 1) None src = Drawn r rest →
  1 ≤ step r ∧ 1 ≤ range_len r ≤ max_bound.
Proof.
  intros (length & Hlen & _ & Hstep & Hne & Hstop)%ranges_Drawn.
  apply in_bounds_Some in Hlen. apply in_bounds_lower in Hstep.
  simpl in Hlen. destruct r as [a b s]. simpl in *. subst b.
  rewrite range_len_stepped by lia. lia.
Qed.

(** C3, amended: both ranges of a drawn grid are non-empty, within the
    configured sizes, with a step of at least 1; the keys of the mapping
    are, without repetition, exactly the pairs of the Cartesian product of
    the two ranges, and each pair is mapped to an integer. *)
Theorem items2d_grid i_size j_size src v rest :
  items2d i_size j_size src = Drawn v rest →
  (1 ≤ step (i_range v) ∧ 1 ≤ range_len (i_range v) ≤ i_size)
  ∧ (1 ≤ step (j_range v) ∧ 1 ≤ range_len (j_range v) ≤ j_size)
  ∧ NoDup (dict_keys (items v))
  ∧ (∀ i j, (i, j) ∈ dict_keys (items v)
            ↔ i ∈ range_list (i_range v) ∧ j ∈ range_list (j_range v))
  ∧ (∀ i j, i ∈ range_list (i_range v) → j ∈ range_list (j_range v) →
            ∃ z : Z, dict_get (i, j) (items v) = Some z).
Proof.
  unfold items2d. intros H.
  apply bind_Drawn in H as (ir & src1 & Hi & H).
  apply bind_Drawn in H as (jr & src2 & Hj & H).
  apply bind_Drawn in H as (values & src3 & [Hlen _]%lists_Drawn & [-> _]%ret_Drawn).
  apply ranges_nonempty in Hi, Hj. simpl.
  assert (∀ i j, (i, j) ∈ dict_keys
                   (dict_from_items
                      (zip (product (range_list ir) (range_list jr)) values))
                 ↔ i ∈ range_list ir ∧ j ∈ range_list jr) as Hkeys.
  { intros i j. rewrite elem_of_dict_from_items, fst_zip.
    - apply elem_of_product.
    - unfold product. rewrite length_prod, !length_range_list. nia. }
  split_and!; try lia.
  - apply NoDup_dict_from_items.
  - done.
  - intros i j Hir Hjr. apply dict_get_is_Some, Hkeys. done.
Qed.

(** C3 at a concrete draw: a grid over [range(0, 2, 2)] and [range(0, 1)]. *)
Lemma items2d_grid_witness :
  (1 ≤ 2 ∧ 1 ≤ range_len (Range 0 2 2) ≤ 1)
  ∧ (1 ≤ 1 ∧ 1 ≤ range_len (Range 0 1 1) ≤ 1)
  ∧ NoDup (dict_keys [((0, 0), 7)])
  ∧ (∀ i j, (i, j) ∈ dict_keys [((0, 0), 7)]
            ↔ i ∈ range_list (Range 0 2 2) ∧ j ∈ range_list (Range 0 1 1))
  ∧ (∀ i j, i ∈ range_list (Range 0 2 2) → j ∈ range_list (Range 0 1 1) →
            ∃ z : Z, dict_get (i, j) [((0, 0), 7)] = Some z).
Proof.
  exact (items2d_grid 1 1 [0; 1; 2; 0; 1; 1; 1; 7]
           (MkItems2D (Range 0 2 2) (Range 0 1 1) [((0, 0), 7)]) [] eq_refl).
Defined.

(** ** Strategies: the choices that draw a value *)

Lemma draws_with_ret {A} (a : A) : draws_with (ret a) [] a.
Proof. by intros rest. Qed.

Lemma draws_with_bind {A B} (s : Strategy A) (f : A → Strategy B) p q a b :
  draws_with s p a → draws_with (f a) q b → draws_with (bind s f) (p ++ q) b.
Proof.
  intros Hs Hf rest. unfold bind. by rewrite <- app_assoc, Hs, Hf.
Qed.

Lemma draws_with_integers min_value max_value z :
  in_bounds min_value max_value z = true →
  draws_with (integers min_value max_value) [z] z.
Proof. intros Hz rest. simpl. by rewrite Hz. Qed.

Lemma draws_with_sampled_from {A} (xs : list A) x :
  x ∈ xs → ∃ i, draws_with (sampled_from xs) [i] x.
Proof.
  intros [n Hn]%list_elem_of_lookup_1. exists (Z.of_nat n).
  pose proof (lookup_lt_Some _ _ _ Hn) as Hlt.
  unfold sampled_from.
  apply (draws_with_bind _ _ [Z.of_nat n] [] (Z.of_nat n)).
  - apply draws_with_integers, in_bounds_Some. lia.
  - rewrite Nat2Z.id, Hn. apply draws_with_ret.
Qed.



Lemma draws_with_fixed_dictionaries {K V} (d : list (K * Strategy V)) kvs :
  Forall2 (λ ks kv, ks.1 = kv.1 ∧ ∃ p, draws_with ks.2 p kv.2) d kvs →
  ∃ p, draws_with (fixed_dictionaries d) p kvs.
Proof.
  induction 1 as [|[k s] [k' v] d kvs [Hk [p Hp]] _ [q Hq]]; simpl in *.
  - exists []. apply draws_with_ret.
  - subst k'. exists (p ++ (q ++ [])).
    apply (draws_with_bind _ _ _ _ v); [done|].
    apply (draws_with_bind _ _ _ _ kvs); [done|]. apply draws_with_ret.
Qed.

(** ** The dictionary of printable strings *)



Lemma dict_get_elem {K V} `{EqDecision K} (d : list (K * V)) k v :
  NoDup (dict_keys d) → (k, v) ∈ d → dict_get k d = Some v.
Proof.
  unfold dict_keys. induction d as [|[k' v'] d IH]; simpl.
  - intros _ Hin. by apply elem_of_nil in Hin.
  - intros [Hk' Hd]%NoDup_cons [[= -> ->]|Hin]%elem_of_cons.
    + by rewrite decide_True.
    + rewrite decide_False; [by apply IH|]. intros ->. apply Hk'.
      apply list_elem_of_fmap. by exists (k', v).
Qed.



(** What the drawn dictionary holds, key by key. *)
Lemma fixed_dictionaries_get {V} (d : list (string * Strategy V)) kvs :
  Forall2 (λ ks kv, ks.1 = kv.1 ∧ produces ks.2 kv.2) d kvs →
  dict_keys kvs = dict_keys d
  ∧ ∀ k s, dict_get k d = Some s →
           ∃ v, dict_get k kvs = Some v ∧ produces s v.
Proof.
  induction 1 as [|[k0 s0] [k1 v1] d kvs [Hk Hv] _ [IHk IHg]]; [done|].
  simpl in Hk, Hv. subst k1. split.
  - unfold dict_keys in *. simpl. by f_equal.
  - intros k s. simpl. case_decide; [|apply IHg].
    intros [= <-]. by exists v1.
Qed.


Lemma printable_alphabet :
  Forall (λ c, 32 ≤ ord c ≤ 126)
         (String.list_ascii_of_string PRINTABLE_ASCII_ALPHABET).
Proof. refine (bool_decide_unpack _ _). vm_compute. exact I. Qed.

Lemma chr_ord c : chr (ord c) = c.
Proof. unfold chr, ord. rewrite Nat2Z.id. apply Ascii.ascii_nat_embedding. Qed.

Lemma printable_in_alphabet c :
  32 ≤ ord c ≤ 126 →
  c ∈ String.list_ascii_of_string PRINTABLE_ASCII_ALPHABET.
Proof.
  intros Hc. unfold PRINTABLE_ASCII_ALPHABET.
  rewrite String.list_ascii_of_string_of_list_ascii.
  apply list_elem_of_fmap. exists (ord c). split; [by rewrite chr_ord|].
  apply elem_of_range_list_unit_step; [done|]. simpl. lia.
Qed.






(** The dictionary drawn at the source 2, 1, 2 for that call. *)
Example fixed_dict_example :
  match fixed_dict_of_printable_strings
          ["x"; "y"] [("y", PyInt 3); ("z", PyNone)] with
  | Ok s =>
      s [2; 1; 2; 5]
      = Drawn [("x", PyStr (String (chr 33) (String (chr 34) "")));
               ("y", PyInt 3); ("z", PyNone)] [5]
  | Raised _ => False
  end.
Proof. vm_compute. reflexivity. Qed.

(** ** The header generator *)

Section HeaderFacts.
Context {instance : Type}.
Implicit Types (cls : header_class instance).

(** One turn of the loop of [header], for a declared field name: the
    strategy set for the field draws exactly the values that the field may
    hold. *)
Lemma header_fields_step cls name names kwargs fs :
  name ∈ ordered_field_names cls →
  ∃ kwargs1 s,
    header_fields cls (name :: names) kwargs fs
    = header_fields cls names kwargs1 (dict_set name s fs)
    ∧ (∀ k, k ∈ dict_keys kwargs1 ↔ k ∈ dict_keys kwargs ∧ k ≠ name)
    ∧ (∀ g, g ≠ name → dict_get g kwargs1 = dict_get g kwargs)
    ∧ (∀ v, produces s v → field_value_ok cls kwargs name v)
    ∧ (∀ v, field_value_ok cls kwargs name v → ∃ p, draws_with s p v).
Proof.
  intros [t Ht]%dict_get_is_Some. simpl. unfold field_value_ok.
  destruct (dict_get name kwargs) as [fixed|] eqn:Hfixed.
  - exists (dict_pop name kwargs), (just fixed). split_and!.
    + done.
    + intros k. rewrite elem_of_dict_keys_pop. tauto.
    + intros g Hg. by apply dict_get_pop_ne.
    + intros v Hv. by apply produces_just in Hv.
    + intros v ->. exists []. apply draws_with_ret.
  - apply dict_get_None in Hfixed. unfold field_value_type. rewrite Ht.
    assert (∀ k, k ∈ dict_keys kwargs ↔ k ∈ dict_keys kwargs ∧ k ≠ name)
      as Hkeys.
    { intros k. split; [|tauto]. intros Hk. split; [done|]. by intros ->. }
    destruct t as [VALUES|MINIMUM MAXIMUM].
    + exists kwargs, (sampled_from (sorted VALUES)).
      split_and!; [done|done|done| |].
      * intros v Hv%produces_sampled_from. exists (Enumerated VALUES).
        split; [done|]. simpl. unfold sorted in Hv.
        by rewrite merge_sort_Permutation in Hv.
      * intros v (t' & [= <-] & Hv). simpl in Hv.
        destruct (draws_with_sampled_from (sorted VALUES) v) as [i Hi].
        -- unfold sorted. by rewrite merge_sort_Permutation.
        -- by exists [i].
    + exists kwargs, (integers (Some MINIMUM) (Some MAXIMUM)).
      split_and!; [done|done|done| |].
      * intros v Hv%produces_integers%in_bounds_Some.
        by exists (Bounded MINIMUM MAXIMUM).
      * intros v (t' & [= <-] & Hv). simpl in Hv. exists [v].
        by apply draws_with_integers, in_bounds_Some.
Qed.

(** The loop of [header] over declared field names: it does not raise, it
    drops from the keyword arguments exactly the names it met, and it sets
    one strategy per name. *)
Lemma header_fields_spec cls names :
  ∀ kwargs fs,
    (∀ g, g ∈ names → g ∈ ordered_field_names cls) →
    ∃ kwargs' fs',
      header_fields cls names kwargs fs = Ok (kwargs', fs')
      ∧ (∀ k, k ∈ dict_keys kwargs' ↔ k ∈ dict_keys kwargs ∧ k ∉ names)
      ∧ (∀ g, g ∉ names → dict_get g fs' = dict_get g fs)
      ∧ (NoDup names → (∀ g, g ∈ names → g ∉ dict_keys fs) →
         dict_keys fs' = dict_keys fs ++ names)
      ∧ (NoDup names → ∀ g, g ∈ names →
         ∃ s, dict_get g fs' = Some s
              ∧ (∀ v, produces s v → field_value_ok cls kwargs g v)
              ∧ (∀ v, field_value_ok cls kwargs g v → ∃ p, draws_with s p v)).
Proof.
  induction names as [|name names IH]; intros kwargs fs Hdecl.
  - exists kwargs, fs. split_and!; try done.
    + intros k. split; [|tauto]. intros Hk. split; [done|apply not_elem_of_nil].
    + intros _ _. by rewrite app_nil_r.
    + intros _ g Hg. by apply elem_of_nil in Hg.
  - destruct (header_fields_step cls name names kwargs fs)
      as (kwargs1 & s & Hstep & Hk1 & Hg1 & Hs & Hreach);
      [apply Hdecl; by left|].
    destruct (IH kwargs1 (dict_set name s fs))
      as (kwargs' & fs' & Hrun & Hk' & Hother & Hkeys & Hfix).
    { intros g Hg. apply Hdecl. by right. }
    exists kwargs', fs'. split_and!.
    + by rewrite Hstep.
    + intros k. rewrite Hk', Hk1, not_elem_of_cons. tauto.
    + intros g [Hne Hg]%not_elem_of_cons. rewrite Hother by done.
      by apply dict_get_set_ne.
    + intros [Hname Hnames]%NoDup_cons Hfresh. rewrite Hkeys.
      * rewrite dict_keys_set_new by (apply Hfresh; by left).
        by rewrite <- app_assoc.
      * done.
      * intros g Hg [->|Hin]%elem_of_dict_keys_set; [done|].
        by apply (Hfresh g); [right|].
    + intros [Hname Hnames]%NoDup_cons g [->|Hg]%elem_of_cons.
      * exists s. split; [|done]. rewrite Hother by done.
        apply dict_get_set_eq.
      * destruct (Hfix Hnames g Hg) as (s' & Hs' & Hv & Hd). exists s'.
        assert (∀ v, field_value_ok cls kwargs1 g v
                     ↔ field_value_ok cls kwargs g v) as Hsame.
        { intros v. unfold field_value_ok. rewrite Hg1; [done|].
          by intros ->. }
        split_and!; [done| |].
        -- intros v Hp. by apply Hsame, Hv.
        -- intros v Hok. by apply Hd, Hsame.
Qed.

Lemma Forall2_by_key {S V} (fs : list (string * S)) (kw : list (string * V))
    (R : S → V → Prop) :
  dict_keys kw = dict_keys fs →
  (∀ name s v, (name, s) ∈ fs → (name, v) ∈ kw → R s v) →
  Forall2 (λ ks kv, ks.1 = kv.1 ∧ R ks.2 kv.2) fs kw.
Proof.
  unfold dict_keys. revert kw.
  induction fs as [|[k s] fs IH]; intros [|[k' v] kw]; simpl; try done.
  intros [= -> Hkeys] HR. constructor.
  - split; [done|]. apply (HR k); by left.
  - apply IH; [done|]. intros name s' v' Hs' Hv'.
    apply (HR name); by right.
Qed.

(** C7, amended: [header] raises exactly when some keyword argument is
    named [header_class], the name of its own first parameter, or names a
    field that the header class does not declare, and what it raises is a
    [TypeError]; otherwise it returns a strategy.  For a class of distinct
    field names, every header that the strategy draws is built by the
    class from values for exactly the declared fields, in their order:
    the supplied value for each field named by a keyword argument, and a
    value of its declared domain for every other field.  The strategy does
    draw: for every such assignment of field values some draw calls the
    class on it, and yields the instance that the class builds, or raises
    what the class raises. *)
Theorem header_spec cls kwargs :
  (is_raised (header cls kwargs)
   ↔ "header_class" ∈ dict_keys kwargs
     ∨ ∃ name, name ∈ dict_keys kwargs ∧ name ∉ ordered_field_names cls)
  ∧ (∀ e, header cls kwargs = Raised e → ∃ msg, e = TypeError msg)
  ∧ (NoDup (ordered_field_names cls) →
     ∀ s, header cls kwargs = Ok s →
       (∀ src h rest, s src = Drawn h rest →
          ∃ kw, class_call cls kw = Ok h
                ∧ dict_keys kw = ordered_field_names cls
                ∧ ∀ name, name ∈ ordered_field_names cls →
                    ∃ v, dict_get name kw = Some v
                         ∧ field_value_ok cls kwargs name v)
       ∧ (∀ kw, dict_keys kw = ordered_field_names cls →
            (∀ name v, (name, v) ∈ kw → field_value_ok cls kwargs name v) →
            ∃ src, ∀ rest,
              s (src ++ rest)
              = match class_call cls kw with
                | Ok h => Drawn h rest
                | Raised e => Failed e
                end)).
Proof.
  unfold header.
  destruct (decide ("header_class" ∈ dict_keys kwargs)) as [Hself|Hself].
  { split_and!.
    - split; [by left|done].
    - intros e [= <-]. by eexists.
    - done. }
  destruct (header_fields_spec cls (ordered_field_names cls) kwargs [])
    as (kwargs' & fs' & -> & Hk' & _ & Hkeys & Hfix); [done|].
  split_and!.
  - case_decide as Hlen; simpl.
    + split; [intros _|done]. right.
      destruct kwargs' as [|[name v] kwargs']; [simpl in Hlen; lia|].
      exists name. apply Hk'. by left.
    + split; [done|]. intros [?|(name & Hname)]; [done|]. apply Hk' in Hname.
      destruct kwargs'; [by apply elem_of_nil in Hname|simpl in Hlen; lia].
  - intros e. case_decide; [|done]. intros [= <-]. by eexists.
  - intros Hnodup s. case_decide; [done|]. intros [= <-].
    assert (dict_keys fs' = ordered_field_names cls) as Hfs'.
    { apply (Hkeys Hnodup). intros g _. apply not_elem_of_nil. }
    unfold smap_raising. split.
    + intros src h rest Hh.
      apply bind_Drawn in Hh as (kw & mid & Hkw & [Hcall _]%lift_Drawn).
      apply fixed_dictionaries_Drawn, fixed_dictionaries_get in Hkw
        as [Hkk Hget].
      exists kw. split_and!; [done|congruence|].
      intros name Hname.
      destruct (Hfix Hnodup name Hname) as (s & Hs & Hv & _).
      destruct (Hget _ _ Hs) as (v & Hgv & Hp). exists v. split; [done|].
      by apply Hv.
    + intros kw Hkw Hok.
      destruct (draws_with_fixed_dictionaries fs' kw) as [p Hp].
      { apply (Forall2_by_key fs' kw (λ s v, ∃ p, draws_with s p v));
          [congruence|]. intros name s v Hin Hv.
        assert (name ∈ ordered_field_names cls) as Hname.
        { rewrite <- Hfs'. apply list_elem_of_fmap. by exists (name, s). }
        destruct (Hfix Hnodup name Hname) as (s' & Hs' & _ & Hdraw).
        rewrite (dict_get_elem fs' name s) in Hs'; [|by rewrite Hfs'|done].
        injection Hs' as <-. by apply Hdraw, Hok. }
      exists p. intros rest. unfold bind. rewrite Hp.
      by destruct (class_call cls kw).
Qed.

End HeaderFacts.

(** C7, as stated: [header] raises exactly when some keyword argument names
    a field that the class does not declare.  A keyword named
    [header_class] is refused also when the class declares a field of that
    name. *)
Lemma header_declared_name_refused :
  ¬ (∀ (cls : header_class (list (string * Z))) kwargs,
       is_raised (header cls kwargs)
       ↔ ∃ name, name ∈ dict_keys kwargs ∧ name ∉ ordered_field_names cls).
Proof.
  intros H.
  destruct (H (HeaderClass "H" [("header_class", Bounded 0 3)] Ok)
              [("header_class", 1)]) as [Hraised _].
  destruct Hraised as (name & Hin & Hout); [exact I|].
  apply list_elem_of_singleton in Hin as ->. apply Hout.
  by apply list_elem_of_singleton.
Qed.

(** C7 at a concrete class, whose instances are their field values: with
    the field a fixed to 7, some draw yields the header a = 7, b = 2. *)
Lemma header_spec_witness :
  match header (HeaderClass "H" [("a", Bounded 0 3); ("b", Enumerated [3; 1; 2])] Ok)
               [("a", 7)] with
  | Ok s => ∃ src, ∀ rest, s (src ++ rest) = Drawn [("a", 7); ("b", 2)] rest
  | Raised _ => False
  end.
Proof.
  destruct (header_spec
              (HeaderClass "H" [("a", Bounded 0 3); ("b", Enumerated [3; 1; 2])] Ok)
              [("a", 7)]) as (Hr & _ & Hok).
  destruct (header _ [("a", 7)]) as [s|e].
  - assert (NoDup ["a"; "b"]) as Hnodup
      by (refine (bool_decide_unpack _ _); reflexivity).
    destruct (Hok Hnodup s eq_refl) as [_ Hreach].
    apply (Hreach [("a", 7); ("b", 2)]); [reflexivity|].
    intros name v Hin. unfold field_value_ok.
    apply elem_of_cons in Hin as [[= -> ->]|Hin]; [reflexivity|].
    apply list_elem_of_singleton in Hin as [= -> ->]. simpl.
    exists (Enumerated [3; 1; 2]). split; [reflexivity|]. simpl.
    apply elem_of_cons. right. apply elem_of_cons. right.
    by apply list_elem_of_singleton.
  - destruct (proj1 Hr I) as [Hin|(name & Hin & Hout)].
    + by apply list_elem_of_singleton in Hin.
    + apply list_elem_of_singleton in Hin as ->. apply Hout.
      apply elem_of_cons. by left.
Defined.

(** [header] at that class: an undeclared name is refused, a declared name
    is fixed, and a class that refuses the field values raises at the
    draw. *)
Example header_example :
  let fields := [("a", Bounded 0 3); ("b", Enumerated [3; 1; 2])] in
  header (HeaderClass "H" fields Ok) [("a", 7); ("c", 1)]
  = Raised (TypeError "Unrecognised binary header field names c for H")
  ∧ match header (HeaderClass "H" fields Ok) [("a", 7)] with
    | Ok s => s [2; 4] = Drawn [("a", 7); ("b", 3)] [4]
    | Raised _ => False
    end
  ∧ match header (HeaderClass "H" fields
                    (λ kw, Raised (ValueError "out of range")
                           : result (list (string * Z))))
                 [("a", 7)] with
    | Ok s => s [2; 4] = Failed (ValueError "out of range")
    | Raised _ => False
    end.
Proof. split_and!; reflexivity. Qed.

(** ** The Catalog: enumeration and lookup agree *)

Import Catalog.

Lemma lookup_items_constant r v k w :
  step r ≠ 0 →
  catalog_lookup (RegularConstantCatalog r v) k = Some w
  ↔ (k, w) ∈ catalog_items (RegularConstantCatalog r v).
Proof.
  intros Hs. simpl. rewrite list_elem_of_fmap. destruct k as [i|i j].
  - destruct (range_contains r i) eqn:Hc.
    + apply range_contains_spec in Hc; [|done]. split.
      * intros [= <-]. by exists i.
      * by intros (i' & [= -> ->] & _).
    + split; [done|]. intros (i' & [= -> ->] & Hi).
      apply range_contains_spec in Hi; [|done]. congruence.
  - split; [done|]. by intros (i' & [=] & _).
Qed.

Lemma lookup_items_regular r values k w :
  step r ≠ 0 → length values = length (range_list r) →
  catalog_lookup (RegularCatalog r values) k = Some w
  ↔ (k, w) ∈ catalog_items (RegularCatalog r values).
Proof.
  intros Hs Hlen. simpl. rewrite elem_of_lookup_zip_with.
  destruct k as [i|i j].
  - destruct (range_contains r i) eqn:Hc.
    + apply range_contains_spec in Hc; [|done].
      pose proof (range_list_index r i Hs Hc) as Hidx. split.
      * intros Hw. apply fmap_Some in Hw as (z & Hz & ->).
        by exists (Z.to_nat ((i - start r) `div` step r)), i, z.
      * intros (idx & i' & z & [= <- ->] & Hi & Hz).
        pose proof (NoDup_lookup _ _ _ _ (NoDup_range_list r Hs) Hi Hidx) as ->.
        by rewrite Hz.
    + split; [done|]. intros (idx & i' & z & [= <- ->] & Hi & Hz).
      apply list_elem_of_lookup_2, range_contains_spec in Hi; [|done].
      congruence.
  - split; [done|]. by intros (idx & i' & z & [=] & _).
Qed.

Lemma lookup_items_linear key_start key_step value_start value_step count k w :
  key_step ≠ 0 →
  catalog_lookup
    (LinearRegularCatalog key_start key_step value_start value_step count) k
  = Some w
  ↔ (k, w) ∈ catalog_items
       (LinearRegularCatalog key_start key_step value_start value_step count).
Proof.
  intros Hs. simpl. rewrite list_elem_of_fmap. destruct k as [i|i j].
  - case_bool_decide as Hd.
    + destruct Hd as [Hmod Hidx].
      pose proof (Z_div_exact_full_2 _ _ Hs Hmod) as Hi. split.
      * intros [= <-]. exists ((i - key_start) `div` key_step). split.
        -- do 2 f_equal. lia.
        -- apply elem_of_seqZ. lia.
      * intros (idx & [= -> ->] & Hin). do 3 f_equal.
        replace (key_start + idx * key_step - key_start) with (idx * key_step)
          by lia.
        by rewrite Z.div_mul.
    + split; [done|]. intros (idx & [= -> ->] & Hin%elem_of_seqZ).
      destruct Hd.
      replace (key_start + idx * key_step - key_start) with (idx * key_step)
        by lia.
      rewrite Z.div_mul, Z_mod_mult by done. lia.
  - split; [done|]. by intros (idx & [=] & _).
Qed.

Lemma lookup_items_linear_2d ir jr a b c k w :
  step ir ≠ 0 → step jr ≠ 0 →
  catalog_lookup (LinearRegularCatalog2D ir jr a b c) k = Some w
  ↔ (k, w) ∈ catalog_items (LinearRegularCatalog2D ir jr a b c).
Proof.
  intros Hi Hj. simpl. rewrite list_elem_of_fmap. destruct k as [i|i j].
  - split; [done|]. by intros (ij & [=] & _).
  - destruct (range_contains ir i && range_contains jr j) eqn:Hc.
    + apply andb_true_iff in Hc as [Hci Hcj].
      apply range_contains_spec in Hci, Hcj; [|done..]. split.
      * intros [= <-]. exists (i, j). split; [done|]. by apply elem_of_product.
      * by intros ([i' j'] & [= -> -> ->] & _).
    + split; [done|]. intros ([i' j'] & [= -> -> ->] & Hin).
      apply elem_of_product in Hin as [Hci Hcj].
      apply range_contains_spec in Hci, Hcj; [|done..].
      simpl in Hc. rewrite Hci, Hcj in Hc. done.
Qed.

(** Looking a key up in a Catalog finds exactly the values that the
    enumeration pairs with the key. *)
Lemma lookup_items c k w :
  catalog_wf c → catalog_lookup c k = Some w ↔ (k, w) ∈ catalog_items c.
Proof.
  destruct c; simpl catalog_wf.
  - apply lookup_items_constant.
  - intros [? ?]. by apply lookup_items_regular.
  - apply lookup_items_linear.
  - intros [? ?]. by apply lookup_items_linear_2d.
  - intros _. simpl. by rewrite elem_of_map_to_list.
Qed.

(** ** The Catalog builder *)

Lemma items_1d_Some items l :
  items_1d items = Some l → items = item_1d <$> l.
Proof.
  unfold items_1d. rewrite mapM_Some.
  induction 1 as [|[k v] [i z] items l Hkv _ IH]; [done|].
  destruct k as [i'|i' j']; [|done]. destruct v as [z'|s]; [|done].
  injection Hkv as -> ->. simpl. by rewrite IH.
Qed.

Lemma items_2d_Some items l :
  items_2d items = Some l → items = item_2d <$> l.
Proof.
  unfold items_2d. rewrite mapM_Some.
  induction 1 as [|[k v] [[i j] z] items l Hkv _ IH]; [done|].
  destruct k as [i'|i' j']; [done|]. destruct v as [z'|s]; [|done].
  injection Hkv as -> -> ->. simpl. by rewrite IH.
Qed.

Lemma range_list_single k : range_list (Range k (k + 1) 1) = [k].
Proof.
  pose proof (range_len_stepped k 1 1) as Hlen.
  rewrite Z.mul_1_l in Hlen. unfold range_list. rewrite Hlen by lia.
  simpl. f_equal. lia.
Qed.

(** The range found for a list of keys has a step and lists the keys. *)
Lemma progression_Some keys r :
  progression keys = Some r → step r ≠ 0 ∧ keys = range_list r.
Proof.
  unfold progression. destruct keys as [|k0 [|k1 keys]]; [done| |].
  - intros [= <-]. by rewrite range_list_single.
  - case_bool_decide as Hd; [|done]. intros [= <-]. by destruct Hd.
Qed.

Lemma item_1d_zip (kvs : list (Z * Z)) :
  zip_with (λ i v, (Key1 i, IntValue v)) (kvs.*1) (kvs.*2) = item_1d <$> kvs.
Proof.
  rewrite zip_with_fst_snd. apply list_fmap_ext. by intros _ [i v] _.
Qed.

Lemma item_1d_constant v (kvs : list (Z * Z)) :
  Forall (eq v) (kvs.*2) →
  (λ i, (Key1 i, IntValue v)) <$> kvs.*1 = item_1d <$> kvs.
Proof.
  induction kvs as [|[i z] kvs IH]; [done|]. simpl.
  intros [-> Hall]%Forall_cons_1. unfold item_1d at 1. simpl. f_equal.
  by apply IH.
Qed.

(** The catalog built for integer keys and integer values enumerates the
    items it was built from. *)
Lemma create_1d_items mapping (l : list (Z * Z)) :
  item_1d <$> l ≡ₚ map_to_list mapping →
  catalog_wf (create_1d mapping l)
  ∧ catalog_items (create_1d mapping l) ≡ₚ map_to_list mapping.
Proof.
  intros Hl. unfold create_1d.
  assert (item_1d <$> sort_by_key l ≡ₚ map_to_list mapping) as Hsorted.
  { rewrite <- Hl. apply fmap_Permutation, merge_sort_Permutation. }
  generalize dependent (sort_by_key l). clear l Hl. intros kvs Hkvs.
  destruct (progression kvs.*1) as [r|] eqn:Hr; [|done].
  apply progression_Some in Hr as [Hstep Hkeys].
  destruct (kvs.*2) as [|v0 rest] eqn:Hvalues; [done|].
  case_bool_decide as Hconst; [|case_bool_decide as Hlinear].
  - split; [done|]. simpl. rewrite <- Hkeys, <- Hkvs.
    rewrite item_1d_constant; [done|]. rewrite Hvalues. by constructor.
  - split; [done|]. simpl. rewrite <- Hkvs, <- item_1d_zip.
    assert (range_len r = Z.of_nat (length (v0 :: rest))) as Hlen.
    { pose proof (range_len_nonneg r).
      assert (length (kvs.*1) = length (kvs.*2)) as Hkv
        by (by rewrite !length_fmap).
      rewrite Hvalues, Hkeys, length_range_list in Hkv. lia. }
    rewrite Hvalues, Hlinear, Hkeys. unfold range_list, linear_values.
    rewrite Hlen, zip_with_fmap_l, zip_with_fmap_r, zip_with_diag. done.
  - split.
    + split; [done|]. rewrite <- Hkeys, <- Hvalues. by rewrite !length_fmap.
    + simpl. by rewrite <- Hkeys, <- Hvalues, item_1d_zip.
Qed.

Lemma NoDup_keys_2d mapping (l : list ((Z * Z) * Z)) :
  item_2d <$> l ≡ₚ map_to_list mapping → NoDup (l.*1).
Proof.
  intros Hl. apply (NoDup_fmap_1 (λ ij, Key2 ij.1 ij.2)).
  assert ((λ ij : Z * Z, Key2 ij.1 ij.2) <$> l.*1 = (item_2d <$> l).*1) as ->.
  { rewrite <- !list_fmap_compose. apply list_fmap_ext. by intros _ [[i j] v] _. }
  rewrite Hl. apply NoDup_fst_map_to_list.
Qed.

(** The catalog built for pair keys and integer values enumerates the
    items it was built from. *)
Lemma create_2d_items mapping (l : list ((Z * Z) * Z)) :
  item_2d <$> l ≡ₚ map_to_list mapping →
  catalog_wf (create_2d mapping l)
  ∧ catalog_items (create_2d mapping l) ≡ₚ map_to_list mapping.
Proof.
  intros Hl. unfold create_2d.
  set (i_keys := merge_sort Z.le (remove_dups (l.*1.*1))).
  set (j_keys := merge_sort Z.le (remove_dups (l.*1.*2))).
  destruct (progression i_keys) as [ir|] eqn:Hir; [|done].
  destruct (progression j_keys) as [jr|] eqn:Hjr; [|done].
  case_bool_decide as Hlen; [|done].
  destruct (dict_get _ l) as [v00|]; [|done].
  destruct (dict_get _ l) as [v10|]; [|done].
  destruct (dict_get _ l) as [v01|]; [|done].
  set (a := slope _ _ v00 v10). set (b := slope _ _ v00 v01).
  set (c := v00 - a * _ - b * _).
  case_bool_decide as Haffine; [|done].
  apply progression_Some in Hir as [Hi Hikeys], Hjr as [Hj Hjkeys].
  split; [done|]. simpl. rewrite <- Hl, <- Hikeys, <- Hjkeys.
  assert (item_2d <$> l
          = (λ ij, (Key2 ij.1 ij.2, IntValue (a * ij.1 + b * ij.2 + c))) <$> l.*1)
    as ->.
  { rewrite <- list_fmap_compose. apply list_fmap_ext.
    intros n [[i j] v] Hn. rewrite Forall_forall in Haffine.
    apply list_elem_of_lookup_2, Haffine in Hn. simpl in *. by subst v. }
  apply fmap_Permutation. symmetry. apply submseteq_length_Permutation.
  - apply NoDup_submseteq; [by eapply NoDup_keys_2d|].
    intros [i j] Hij. apply elem_of_product. unfold i_keys, j_keys.
    rewrite !merge_sort_Permutation, !elem_of_remove_dups. split.
    + apply list_elem_of_fmap. by exists (i, j).
    + apply list_elem_of_fmap. by exists (i, j).
  - unfold product. rewrite length_prod, length_fmap. lia.
Qed.

(** The catalog that the builder creates is well formed and enumerates the
    items of the mapping. *)
Lemma create_items mapping :
  catalog_wf (create mapping)
  ∧ catalog_items (create mapping) ≡ₚ map_to_list mapping.
Proof.
  unfold create.
  destruct (items_1d (map_to_list mapping)) as [l1|] eqn:H1.
  - apply create_1d_items. by rewrite <- (items_1d_Some _ _ H1).
  - destruct (items_2d (map_to_list mapping)) as [l2|] eqn:H2; [|done].
    apply create_2d_items. by rewrite <- (items_2d_Some _ _ H2).
Qed.

(** Looking a key up in the created catalog is looking it up in the
    mapping, for the keys that are present and for those that are not. *)
Lemma create_lookup mapping k :
  catalog_lookup (create mapping) k = mapping !! k.
Proof.
  destruct (create_items mapping) as [Hwf Hitems].
  apply option_eq. intros v.
  by rewrite lookup_items, Hitems, elem_of_map_to_list.
Qed.

(** C1: for every finite mapping from integer or integer-pair keys to
    values, the Catalog that the builder creates (a) returns, for every key
    of the mapping, the value of the mapping, and (b) enumerates exactly
    the pairs of the mapping, none missing, none extra, none twice. *)
Theorem catalog_round_trip (mapping : gmap key value) :
  (∀ k v, mapping !! k = Some v →
          catalog_getitem (create mapping) k = Ok v)
  ∧ (∀ k v, (k, v) ∈ catalog_items (create mapping) ↔ mapping !! k = Some v)
  ∧ NoDup (catalog_items (create mapping))
  ∧ catalog_items (create mapping) ≡ₚ map_to_list mapping.
Proof.
  destruct (create_items mapping) as [Hwf Hitems]. split_and!.
  - intros k v Hkv. unfold catalog_getitem. by rewrite create_lookup, Hkv.
  - intros k v. by rewrite Hitems, elem_of_map_to_list.
  - rewrite Hitems. apply NoDup_map_to_list.
  - done.
Qed.

(** The round trip at the mapping 3 ↦ 4, 5 ↦ 7, 7 ↦ 10, which the builder
    stores as a linear regular catalog. *)
Example catalog_round_trip_linear :
  let mapping : gmap key value :=
    list_to_map [(Key1 5, IntValue 7); (Key1 3, IntValue 4); (Key1 7, IntValue 10)] in
  create mapping = LinearRegularCatalog 3 2 4 3 3
  ∧ catalog_items (create mapping)
    = [(Key1 3, IntValue 4); (Key1 5, IntValue 7); (Key1 7, IntValue 10)]
  ∧ catalog_getitem (create mapping) (Key1 5) = Ok (IntValue 7)
  ∧ catalog_getitem (create mapping) (Key1 4) = Raised (KeyError "key not found").
Proof. vm_compute. done. Qed.

(** The builder reaches each of the five classes. *)
Example create_classes :
  create (list_to_map [(Key1 5, IntValue 7); (Key1 3, IntValue 7); (Key1 7, IntValue 7)])
  = RegularConstantCatalog (Range 3 9 2) 7
  ∧ create (list_to_map [(Key1 5, IntValue 7); (Key1 3, IntValue 4); (Key1 7, IntValue 11)])
    = RegularCatalog (Range 3 9 2) [4; 7; 11]
  ∧ create (list_to_map [(Key1 5, IntValue 7); (Key1 3, IntValue 4); (Key1 7, IntValue 10)])
    = LinearRegularCatalog 3 2 4 3 3
  ∧ create (list_to_map [(Key2 0 0, IntValue 1); (Key2 0 2, IntValue 5);
                          (Key2 1 0, IntValue 4); (Key2 1 2, IntValue 8)])
    = LinearRegularCatalog2D (Range 0 2 1) (Range 0 4 2) 3 2 1
  ∧ create (list_to_map [(Key1 5, IntValue 7); (Key1 3, IntValue 4); (Key1 8, IntValue 11)])
    = DictionaryCatalog
        (list_to_map [(Key1 5, IntValue 7); (Key1 3, IntValue 4); (Key1 8, IntValue 11)])
  ∧ create (list_to_map [(Key1 5, OtherValue "x")])
    = DictionaryCatalog (list_to_map [(Key1 5, OtherValue "x")])
  ∧ create ∅ = DictionaryCatalog ∅.
Proof. vm_compute. done. Qed.

(** * Further properties of the code *)

(** ** The registry tables together *)

(** Every type of the wire-encoding table has a tag whose size
    [size_in_bytes] returns, of 1, 2 or 4 bytes; distinct types have
    distinct tags; and the tags of the table are exactly the tags that have
    a size. *)
Theorem wire_tags_have_sizes (repr : string → string) :
  (∀ t c, SEG_Y_TYPE_TO_CTYPE !! t = Some c →
          ∃ n, size_in_bytes repr c = Ok n ∧ n ∈ [1; 2; 4])
  ∧ (∀ t1 t2 c, SEG_Y_TYPE_TO_CTYPE !! t1 = Some c →
                SEG_Y_TYPE_TO_CTYPE !! t2 = Some c → t1 = t2)
  ∧ (∀ c, is_Some (CTYPE_TO_SIZE !! c)
          ↔ ∃ t, SEG_Y_TYPE_TO_CTYPE !! t = Some c).
Proof.
  split_and!.
  - intros t c H. unfold SEG_Y_TYPE_TO_CTYPE, dict_of_items in H.
    dict_cases H; eexists; (split; [reflexivity|set_solver]).
  - intros t1 t2 c H1 H2. unfold SEG_Y_TYPE_TO_CTYPE, dict_of_items in H1, H2.
    dict_cases H1; dict_cases H2; done.
  - intros c. split.
    + intros [n H]. unfold CTYPE_TO_SIZE, dict_of_items in H.
      dict_cases H;
        [by exists "ibm"|by exists "float32"|by exists "uint8"|by exists "int8"
        |by exists "uint16"|by exists "int16"|by exists "uint32"|by exists "int32"].
    + intros [t H]. unfold SEG_Y_TYPE_TO_CTYPE, dict_of_items in H.
      dict_cases H; by eexists.
Qed.

(** The type of every sample-format code has a wire tag, a description,
    limits and a Python type; the tables of limits and of Python types hold
    exactly the types bound to a sample-format code, and the table of
    descriptions exactly the types of the wire-encoding table. *)
Theorem sample_types_described (MIN_IBM_FLOAT MAX_IBM_FLOAT : PrimFloat.float) :
  (∀ code t, DATA_SAMPLE_FORMAT_TO_SEG_Y_TYPE !! code = Some t →
     is_Some (SEG_Y_TYPE_TO_CTYPE !! t)
     ∧ is_Some (SEG_Y_TYPE_DESCRIPTION !! t)
     ∧ is_Some (LIMITS MIN_IBM_FLOAT MAX_IBM_FLOAT !! t)
     ∧ is_Some (PY_TYPES !! t))
  ∧ (∀ t, is_Some (LIMITS MIN_IBM_FLOAT MAX_IBM_FLOAT !! t)
          ↔ is_Some (SEG_Y_TYPE_TO_DATA_SAMPLE_FORMAT !! t))
  ∧ (∀ t, is_Some (PY_TYPES !! t)
          ↔ is_Some (SEG_Y_TYPE_TO_DATA_SAMPLE_FORMAT !! t))
  ∧ (∀ t, is_Some (SEG_Y_TYPE_DESCRIPTION !! t)
          ↔ is_Some (SEG_Y_TYPE_TO_CTYPE !! t)).
Proof.
  split_and!.
  - intros code t H. unfold DATA_SAMPLE_FORMAT_TO_SEG_Y_TYPE, dict_of_items in H.
    dict_cases H; split_and!; by eexists.
  - intros t. split; intros [x H].
    + unfold LIMITS, dict_of_items in H. dict_cases H; by eexists.
    + unfold SEG_Y_TYPE_TO_DATA_SAMPLE_FORMAT, dict_of_items in H.
      dict_cases H; by eexists.
  - intros t. split; intros [x H].
    + unfold PY_TYPES, dict_of_items in H. dict_cases H; by eexists.
    + unfold SEG_Y_TYPE_TO_DATA_SAMPLE_FORMAT, dict_of_items in H.
      dict_cases H; by eexists.
  - intros t. split; intros [x H].
    + unfold SEG_Y_TYPE_DESCRIPTION, dict_of_items in H.
      dict_cases H; by eexists.
    + unfold SEG_Y_TYPE_TO_CTYPE, dict_of_items in H. dict_cases H; by eexists.
Qed.

(** The limits of a type are integers exactly when its Python type is
    [int], and then they are the signed range of the size of its wire tag:
    from [- 2 ^ (8 * size - 1)] to [2 ^ (8 * size - 1) - 1]. *)
Theorem integer_limits_match_sizes (repr : string → string)
    (MIN_IBM_FLOAT MAX_IBM_FLOAT : PrimFloat.float) :
  (∀ t limits, LIMITS MIN_IBM_FLOAT MAX_IBM_FLOAT !! t = Some limits →
     (PY_TYPES !! t = Some py_int
      ↔ ∃ lo hi, limits = MkLimits (Int lo) (Int hi))
     ∧ (PY_TYPES !! t = Some py_float
        ↔ ∃ lo hi, limits = MkLimits (Float lo) (Float hi)))
  ∧ (∀ t lo hi c n,
       LIMITS MIN_IBM_FLOAT MAX_IBM_FLOAT !! t = Some (MkLimits (Int lo) (Int hi)) →
       SEG_Y_TYPE_TO_CTYPE !! t = Some c →
       size_in_bytes repr c = Ok n →
       lo = - 2 ^ (8 * n - 1) ∧ hi = 2 ^ (8 * n - 1) - 1).
Proof.
  split.
  - intros t limits H. unfold LIMITS, dict_of_items in H.
    dict_cases H; split;
      (split;
       [intros HP; first [discriminate HP|by eexists _, _]
       |intros (lo & hi & [=]); reflexivity]).
  - intros t lo hi c n H Hc Hn. unfold LIMITS, dict_of_items in H.
    dict_cases H; injection Hc as <-; injection Hn as <-; done.
Qed.

(** ** The range generator: sizes, bounds and reach *)

(** A negative minimum length makes every draw of [ranges] raise a
    [ValueError] that names it, whatever the other bounds are. *)
Theorem ranges_negative_min_size
    (min_start_value max_start_value max_size min_step_value max_step_value
     : option Z) (min_size : Z) src :
  min_size < 0 →
  ranges min_start_value max_start_value (Some min_size) max_size
         min_step_value max_step_value src
  = Failed (ValueError ("Value of " +:+ str_of_int min_size
                        +:+ " as min_size for ranges() is negative.")).
Proof. intros Hneg. unfold ranges. simpl. by rewrite decide_True. Qed.

Lemma ranges_negative_min_size_witness :
  ranges None None (Some (-1)) (Some 5) None None [0; 1; 1]
  = Failed (ValueError "Value of -1 as min_size for ranges() is negative.").
Proof.
  apply (ranges_negative_min_size None None (Some 5) None None (-1)). lia.
Defined.

(** A drawn range has as many elements as the length that was drawn for
    it: [len(r)] lies between the minimum length (zero by default) and the
    maximum length, [r.stop] is [r.start + r.step * len(r)], and the start
    and the step lie within their configured bounds. *)
Theorem ranges_within_bounds
    (min_start_value max_start_value min_size max_size
     min_step_value max_step_value : option Z) src r rest :
  ranges min_start_value max_start_value min_size max_size
         min_step_value max_step_value src = Drawn r rest →
  in_bounds (Some (default 0 min_size)) max_size (range_len r) = true
  ∧ Z.of_nat (length (range_list r)) = range_len r
  ∧ stop r = start r + step r * range_len r
  ∧ in_bounds min_start_value max_start_value (start r) = true
  ∧ in_bounds min_step_value max_step_value (step r) = true.
Proof.
  unfold ranges. case_decide as Hmin; [done|].
  intros H. apply bind_Drawn in H as (u & src0 & _ & H).
  apply bind_Drawn in H as (start & src1 & [_ Hstart]%integers_Drawn & H).
  apply bind_Drawn in H as (length & src2 & [_ Hlen]%integers_Drawn & H).
  apply bind_Drawn in H as (step & src3 & [_ Hst]%integers_Drawn & H).
  apply bind_Drawn in H as (u' & src4 & Hstep & H).
  apply assume_Drawn in Hstep as [Hstep%bool_decide_eq_true _].
  apply lift_Drawn in H as [H _]. unfold py_range in H.
  rewrite decide_False in H by done. injection H as <-.
  pose proof (in_bounds_lower _ _ _ Hlen) as Hlow.
  rewrite length_range_list, range_len_stepped by lia. simpl.
  split_and!; try done. lia.
Qed.

Lemma ranges_within_bounds_witness :
  in_bounds (Some 0) (Some 5) (range_len (Range 3 (-3) (-2))) = true
  ∧ Z.of_nat (length (range_list (Range 3 (-3) (-2)))) = range_len (Range 3 (-3) (-2))
  ∧ -3 = 3 + -2 * range_len (Range 3 (-3) (-2))
  ∧ in_bounds None None 3 = true
  ∧ in_bounds None (Some (-1)) (-2) = true.
Proof.
  exact (ranges_within_bounds None None None (Some 5) None (Some (-1))
           [3; 3; -2] (Range 3 (-3) (-2)) [] eq_refl).
Defined.

(** Every range within the configured bounds is drawn: for a start, a
    length and a non-zero step within their bounds, the source that holds
    them yields [range(start, start + step * length, step)]. *)
Theorem ranges_reach
    (min_start_value max_start_value min_size max_size
     min_step_value max_step_value : option Z) (start length step : Z) rest :
  0 ≤ default 0 min_size →
  in_bounds min_start_value max_start_value start = true →
  in_bounds (Some (default 0 min_size)) max_size length = true →
  in_bounds min_step_value max_step_value step = true →
  step ≠ 0 →
  ranges min_start_value max_start_value min_size max_size
         min_step_value max_step_value (start :: length :: step :: rest)
  = Drawn (Range start (start + step * length) step) rest.
Proof.
  intros Hmin Hstart Hlen Hst Hstep. unfold ranges.
  rewrite decide_False by lia.
  assert (from_option (λ bound, default 0 min_size ≤ bound) True max_size)
    as Hmax.
  { destruct max_size as [bound|]; [|done]. simpl.
    pose proof (in_bounds_lower _ _ _ Hlen).
    unfold in_bounds in Hlen. simpl in Hlen.
    apply andb_true_iff in Hlen as [_ Hhi%bool_decide_eq_true]. lia. }
  unfold bind at 1. destruct max_size as [bound|]; simpl in Hmax.
  - rewrite decide_False by lia. unfold ret at 1.
    unfold bind, integers. rewrite Hstart, Hlen, Hst.
    unfold assume. rewrite bool_decide_eq_true_2 by done.
    unfold ret, lift, py_range. by rewrite decide_False.
  - unfold ret at 1. unfold bind, integers. rewrite Hstart, Hlen, Hst.
    unfold assume. rewrite bool_decide_eq_true_2 by done.
    unfold ret, lift, py_range. by rewrite decide_False.
Qed.

Lemma ranges_reach_witness :
  ranges None None (Some 1) (Some 4) (Some 1) None [7; 2; 3; 9]
  = Drawn (Range 7 (7 + 3 * 2) 3) [9].
Proof.
  apply (ranges_reach None None (Some 1) (Some 4) (Some 1) None 7 2 3 [9]);
    [simpl; lia|reflexivity|reflexivity|reflexivity|lia].
Defined.

(** ** The spaced-ranges generator: intervals *)

Lemma spaced_lookup lo hi bound rs :
  spaced lo hi bound rs →
  Forall (λ r, step r = 1 ∧ lo ≤ stop r - start r ≤ hi) rs
  ∧ (∀ r, head rs = Some r → lo ≤ start r - bound ≤ hi)
  ∧ (∀ (i : nat) r1 r2, rs !! i = Some r1 → rs !! S i = Some r2 →
                        lo ≤ start r2 - stop r1 ≤ hi).
Proof.
  revert bound. induction rs as [|r rs IH]; intros bound; simpl.
  - intros _. split_and!; [constructor|done|done].
  - intros (Hs & Hgap & Hlen & Hrest).
    destruct (IH _ Hrest) as (Hall & Hhead & Hnext). split_and!.
    + by constructor.
    + by intros r' [= <-].
    + intros [|i] r1 r2 H1 H2; simpl in H1, H2.
      * injection H1 as <-. apply Hhead. by destruct rs.
      * by eapply Hnext.
Qed.

(** The running totals of intervals between [lo] and [hi], taken two by
    two, are ranges that [range] accepts, spaced by those intervals. *)
Lemma spaced_of_running_totals lo hi (m : nat) :
  ∀ l total (fuel : nat),
    length l = (2 * m)%nat → (length l ≤ fuel)%nat →
    Forall (λ x, lo ≤ x ≤ hi) l →
    ∃ rs, traverse range_of_args (batches fuel (accumulate_from total l) 2 None) = Ok rs
          ∧ length rs = m ∧ spaced lo hi total rs.
Proof.
  induction m as [|m IH]; intros l total fuel Hlen Hfuel Hall.
  - destruct l; [|done]. exists []. by destruct fuel.
  - destruct l as [|x [|y l]]; [done|simpl in Hlen; lia|].
    destruct fuel as [|fuel]; [simpl in Hfuel; lia|].
    apply Forall_cons_1 in Hall as [Hx Hall].
    apply Forall_cons_1 in Hall as [Hy Hall].
    destruct (IH l (total + x + y) fuel) as (rs & Hrs & Hn & Hsp);
      [simpl in Hlen; lia|simpl in Hfuel; lia|done|].
    exists (Range (total + x) (total + x + y) 1 :: rs).
    split_and!.
    + simpl. rewrite drop_0. simpl in Hrs. by rewrite Hrs.
    + simpl. by rewrite Hn.
    + simpl. split_and!; [done|lia|lia|lia|lia|done].
Qed.

(** What [spaced_ranges] draws: the ranges made of the running totals of
    the drawn intervals. *)
Lemma spaced_ranges_outcome min_num_ranges max_num_ranges min_interval max_interval src :
  match spaced_ranges min_num_ranges max_num_ranges min_interval max_interval src with
  | Drawn rs _ =>
      min_num_ranges ≤ Z.of_nat (length rs) ≤ max_num_ranges
      ∧ spaced min_interval max_interval 0 rs
  | Failed _ => True
  | Rejected => True
  end.
Proof.
  unfold spaced_ranges, smap_raising, smap, flatmap. unfold bind, ret.
  destruct (integers (Some min_num_ranges) (Some max_num_ranges) src)
    as [n0 src0|e|] eqn:Hn0; cbv beta iota; [|done|done].
  apply integers_Drawn in Hn0 as [_ Hn0%in_bounds_Some].
  destruct (lists (integers (Some min_interval) (Some max_interval))
              (2 * n0) (2 * n0) src0) as [lst src1|e|] eqn:Hlst; cbv beta iota;
    [|done|done].
  apply lists_Drawn in Hlst as [Hlen Hall].
  unfold batched. rewrite decide_False by lia. unfold lift, ret.
  rewrite accumulate_from_zero, length_accumulate_from.
  destruct (spaced_of_running_totals min_interval max_interval
              (Z.to_nat n0) lst 0 (length lst))
    as (rs & Hrs & Hn & Hsp); [lia|lia| |].
  { eapply Forall_impl; [exact Hall|]. intros x Hx.
    by apply produces_integers, in_bounds_Some in Hx. }
  change (Z.to_nat 2) with 2%nat. rewrite Hrs.
  split; [lia|done].
Qed.

(** The lengths of the drawn ranges and the gaps between them lie in the
    configured interval: every range has step one and [stop - start]
    between [min_interval] and [max_interval], the first range starts that
    far from zero, and each next range starts that far from the stop of the
    range before it. *)
Theorem spaced_ranges_intervals
    min_num_ranges max_num_ranges min_interval max_interval src rs rest :
  spaced_ranges min_num_ranges max_num_ranges min_interval max_interval src
  = Drawn rs rest →
  Forall (λ r, step r = 1 ∧ min_interval ≤ stop r - start r ≤ max_interval) rs
  ∧ (∀ r, head rs = Some r → min_interval ≤ start r ≤ max_interval)
  ∧ (∀ (i : nat) r1 r2, rs !! i = Some r1 → rs !! S i = Some r2 →
                        min_interval ≤ start r2 - stop r1 ≤ max_interval).
Proof.
  intros H.
  pose proof (spaced_ranges_outcome min_num_ranges max_num_ranges
                min_interval max_interval src) as Hout.
  rewrite H in Hout. destruct Hout as [_ Hsp].
  apply spaced_lookup in Hsp as (Hall & Hhead & Hnext). split_and!.
  - done.
  - intros r Hr. specialize (Hhead r Hr). lia.
  - done.
Qed.

Lemma spaced_ranges_intervals_witness :
  Forall (λ r, step r = 1 ∧ 1 ≤ stop r - start r ≤ 4)
         [Range 1 3 1; Range 6 10 1]
  ∧ (∀ r, head [Range 1 3 1; Range 6 10 1] = Some r → 1 ≤ start r ≤ 4)
  ∧ (∀ (i : nat) r1 r2,
       [Range 1 3 1; Range 6 10 1] !! i = Some r1 →
       [Range 1 3 1; Range 6 10 1] !! S i = Some r2 →
       1 ≤ start r2 - stop r1 ≤ 4).
Proof.
  exact (spaced_ranges_intervals 1 3 1 4 [2; 4; 1; 2; 3; 4] _ [] eq_refl).
Defined.

(** ** The header generator: the error message *)

Lemma filter_keys_all (kwargs : list (string * Z)) :
  filter (λ kv : string * Z, kv.1 ∉ @nil string) kwargs = kwargs.
Proof.
  induction kwargs as [|kv kwargs IH]; [done|].
  rewrite filter_cons, decide_True by apply not_elem_of_nil. by rewrite IH.
Qed.

Lemma filter_keys_pop (names : list string) name (kwargs : list (string * Z)) :
  filter (λ kv : string * Z, kv.1 ∉ names) (dict_pop name kwargs)
  = filter (λ kv : string * Z, kv.1 ∉ name :: names) kwargs.
Proof.
  unfold dict_pop. induction kwargs as [|[k v] kwargs IH]; [done|].
  rewrite (filter_cons (λ kv : string * Z, kv.1 ≠ name)).
  rewrite (filter_cons (λ kv : string * Z, kv.1 ∉ name :: names)).
  simpl. destruct (decide (k ≠ name)) as [Hne|Heq].
  - rewrite filter_cons. simpl. destruct (decide (k ∉ names)) as [Hk|Hk].
    + rewrite decide_True by (by apply not_elem_of_cons). by rewrite IH.
    + rewrite decide_False; [done|]. intros [_ ?]%not_elem_of_cons. done.
  - rewrite decide_False; [done|]. intros [? _]%not_elem_of_cons. done.
Qed.

Lemma filter_keys_absent (names : list string) name (kwargs : list (string * Z)) :
  name ∉ dict_keys kwargs →
  filter (λ kv : string * Z, kv.1 ∉ names) kwargs
  = filter (λ kv : string * Z, kv.1 ∉ name :: names) kwargs.
Proof.
  unfold dict_keys. induction kwargs as [|[k v] kwargs IH]; [done|].
  simpl. intros [Hne Hk]%not_elem_of_cons. rewrite !filter_cons. simpl.
  destruct (decide (k ∉ names)) as [Hin|Hin].
  - rewrite decide_True by (apply not_elem_of_cons; split; [congruence|done]).
    by rewrite IH.
  - rewrite decide_False; [by apply IH|].
    intros [_ ?]%not_elem_of_cons. done.
Qed.

Lemma dict_keys_filter (names : list string) (kwargs : list (string * Z)) :
  dict_keys (filter (λ kv : string * Z, kv.1 ∉ names) kwargs)
  = filter (λ name, name ∉ names) (dict_keys kwargs).
Proof.
  unfold dict_keys. induction kwargs as [|[k v] kwargs IH]; [done|].
  simpl. rewrite !filter_cons. simpl.
  destruct (decide (k ∉ names)); simpl; [f_equal|]; exact IH.
Qed.

Section HeaderMessage.
Context {instance : Type}.
Implicit Types (cls : header_class instance).

(** The loop of [header] over declared field names leaves of the keyword
    arguments those whose name it did not meet, in their order. *)
Lemma header_fields_kwargs cls names :
  ∀ kwargs fs,
    (∀ g, g ∈ names → g ∈ ordered_field_names cls) →
    ∃ fs',
      header_fields cls names kwargs fs
      = Ok (filter (λ kv : string * Z, kv.1 ∉ names) kwargs, fs').
Proof.
  induction names as [|name names IH]; intros kwargs fs Hdecl.
  - exists fs. simpl. by rewrite filter_keys_all.
  - assert (name ∈ ordered_field_names cls) as Hname by (apply Hdecl; by left).
    apply dict_get_is_Some in Hname as [t Ht].
    assert (∀ g, g ∈ names → g ∈ ordered_field_names cls) as Hdecl'
      by (intros g Hg; apply Hdecl; by right).
    simpl. destruct (dict_get name kwargs) as [fixed|] eqn:Hfixed.
    + destruct (IH (dict_pop name kwargs) (dict_set name (just fixed) fs) Hdecl')
        as (fs' & ->).
      exists fs'. by rewrite filter_keys_pop.
    + apply dict_get_None in Hfixed. unfold field_value_type. rewrite Ht.
      destruct t as [VALUES|MINIMUM MAXIMUM].
      * destruct (IH kwargs (dict_set name (sampled_from (sorted VALUES)) fs) Hdecl')
          as (fs' & ->).
        exists fs'. by rewrite <- filter_keys_absent.
      * destruct (IH kwargs
                    (dict_set name (integers (Some MINIMUM) (Some MAXIMUM)) fs)
                    Hdecl')
          as (fs' & ->).
        exists fs'. by rewrite <- filter_keys_absent.
Qed.

(** When no keyword argument is named [header_class] and some keyword
    argument names a field that the class does not declare, the
    [TypeError] of [header] lists exactly the undeclared names, in the
    order of the keyword arguments, and the name of the class. *)
Theorem header_error_names cls kwargs :
  "header_class" ∉ dict_keys kwargs →
  undeclared cls kwargs ≠ [] →
  header cls kwargs
  = Raised (TypeError ("Unrecognised binary header field names "
                       +:+ join ", " (undeclared cls kwargs)
                       +:+ " for " +:+ class_name cls)).
Proof.
  intros Hself Hne. unfold header. rewrite decide_False by done.
  destruct (header_fields_kwargs cls (ordered_field_names cls) kwargs [])
    as (fs' & ->); [done|].
  set (kwargs' := filter (λ kv : string * Z, kv.1 ∉ ordered_field_names cls) kwargs).
  assert (dict_keys kwargs' = undeclared cls kwargs) as Hkeys
    by apply dict_keys_filter.
  rewrite Hkeys. rewrite decide_True; [done|].
  assert (length kwargs' = length (undeclared cls kwargs)) as ->
    by (rewrite <- Hkeys; unfold dict_keys; by rewrite length_fmap).
  destruct (undeclared cls kwargs); [done|simpl; lia].
Qed.

End HeaderMessage.

Lemma header_error_names_witness :
  header (HeaderClass "H" [("a", Bounded 0 3); ("b", Enumerated [3; 1; 2])]
            (Ok : list (string * Z) → result (list (string * Z))))
         [("x", 1); ("a", 7); ("c", 1)]
  = Raised (TypeError "Unrecognised binary header field names x, c for H").
Proof.
  apply (header_error_names
           (HeaderClass "H" [("a", Bounded 0 3); ("b", Enumerated [3; 1; 2])] Ok)
           [("x", 1); ("a", 7); ("c", 1)]).
  - intros Hin. apply elem_of_cons in Hin as [?|Hin]; [done|].
    apply elem_of_cons in Hin as [?|Hin]; [done|].
    by apply list_elem_of_singleton in Hin.
  - discriminate.
Defined.

(** ** The 2-D item grid generator: sizes and order *)

Lemma dict_set_new {K V} `{EqDecision K} (d : list (K * V)) k v :
  k ∉ dict_keys d → dict_set k v d = d ++ [(k, v)].
Proof.
  unfold dict_keys. induction d as [|[k' v'] d IH]; simpl; [done|].
  intros [Hne Hk]%not_elem_of_cons. rewrite decide_False by done.
  by rewrite IH.
Qed.

(** Filling a dictionary with items of distinct new keys appends them. *)
Lemma dict_fill_new {K V} `{EqDecision K} (items d : list (K * V)) :
  NoDup (dict_keys d ++ items.*1) →
  foldl (λ d kv, dict_set kv.1 kv.2 d) d items = d ++ items.
Proof.
  unfold dict_keys. revert d.
  induction items as [|[k v] items IH]; intros d Hnd; simpl.
  - by rewrite app_nil_r.
  - simpl in Hnd. rewrite dict_set_new.
    + rewrite IH; [by rewrite <- app_assoc|].
      rewrite fmap_app. simpl. by rewrite <- app_assoc.
    + apply NoDup_app in Hnd as (_ & Hdisj & _). intros Hk.
      apply (Hdisj k Hk). by left.
Qed.

(** The items of a drawn grid are in row-major order: the keys of the
    mapping are, in this order, the pairs of [product(i_range, j_range)],
    and there are [len(i_range) * len(j_range)] of them. *)
Theorem items2d_row_major i_size j_size src v rest :
  items2d i_size j_size src = Drawn v rest →
  dict_keys (items v) = product (range_list (i_range v)) (range_list (j_range v))
  ∧ Z.of_nat (length (items v)) = range_len (i_range v) * range_len (j_range v).
Proof.
  unfold items2d. intros H.
  apply bind_Drawn in H as (ir & src1 & Hi & H).
  apply bind_Drawn in H as (jr & src2 & Hj & H).
  apply bind_Drawn in H as (values & src3 & [Hlen _]%lists_Drawn & [-> _]%ret_Drawn).
  apply ranges_nonempty in Hi, Hj. simpl.
  assert (length (product (range_list ir) (range_list jr)) = length values)
    as Hsame.
  { unfold product. rewrite length_prod, !length_range_list. nia. }
  assert (dict_from_items (zip (product (range_list ir) (range_list jr)) values)
          = zip (product (range_list ir) (range_list jr)) values) as ->.
  { unfold dict_from_items. rewrite dict_fill_new; [done|]. simpl.
    rewrite fst_zip by lia. apply NoDup_product; apply NoDup_range_list; lia. }
  split.
  - unfold dict_keys. apply fst_zip. lia.
  - rewrite length_zip, Hsame. lia.
Qed.

Lemma items2d_row_major_witness :
  dict_keys [((0, 5), 7); ((0, 6), 8); ((2, 5), 9); ((2, 6), 10)]
  = product (range_list (Range 0 4 2)) (range_list (Range 5 7 1))
  ∧ Z.of_nat (length [((0, 5), 7); ((0, 6), 8); ((2, 5), 9); ((2, 6), 10)])
    = range_len (Range 0 4 2) * range_len (Range 5 7 1).
Proof.
  exact (items2d_row_major 2 2 [0; 2; 2; 5; 2; 1; 4; 7; 8; 9; 10]
           (MkItems2D (Range 0 4 2) (Range 5 7 1)
              [((0, 5), 7); ((0, 6), 8); ((2, 5), 9); ((2, 6), 10)]) []
           eq_refl).
Defined.

(** A configured size below one leaves no grid to draw: [items2d] draws
    nothing, and when it is the size of [i_range] every draw raises the
    [ValueError] of [ranges] for a maximum length below the minimum
    length 1. *)
Theorem items2d_size_below_one i_size j_size src :
  i_size < 1 ∨ j_size < 1 →
  (∀ v rest, items2d i_size j_size src ≠ Drawn v rest)
  ∧ (i_size < 1 →
     items2d i_size j_size src
     = Failed (ValueError ("Value of " +:+ str_of_int i_size
                           +:+ " as max_size for ranges() is less than min_size=1"))).
Proof.
  intros Hsize. split.
  - intros v rest H. unfold items2d in H.
    apply bind_Drawn in H as (ir & src1 & Hi & H).
    apply bind_Drawn in H as (jr & src2 & Hj & _).
    apply ranges_nonempty in Hi, Hj. lia.
  - intros Hi. unfold items2d, ranges. simpl.
    unfold bind. by rewrite decide_True.
Qed.

Lemma items2d_size_below_one_witness :
  (∀ v rest, items2d 0 3 [0; 1; 1] ≠ Drawn v rest)
  ∧ (0 < 1 →
     items2d 0 3 [0; 1; 1]
     = Failed (ValueError ("Value of " +:+ str_of_int 0
                           +:+ " as max_size for ranges() is less than min_size=1"))).
Proof. apply (items2d_size_below_one 0 3 [0; 1; 1]). left. lia. Defined.

(** ** The printable alphabet *)

(** The characters of [PRINTABLE_ASCII_ALPHABET] are exactly those with a
    code point from 32 to 126, each once: the end 127 of
    [PRINTABLE_ASCII_RANGE] is left out. *)
Theorem printable_alphabet_characters :
  (∀ c, c ∈ String.list_ascii_of_string PRINTABLE_ASCII_ALPHABET
        ↔ 32 ≤ ord c ≤ 126)
  ∧ NoDup (String.list_ascii_of_string PRINTABLE_ASCII_ALPHABET).
Proof.
  split.
  - intros c. split.
    + intros Hc. pose proof printable_alphabet as Ha.
      rewrite Forall_forall in Ha. by apply Ha.
    + apply printable_in_alphabet.
  - refine (bool_decide_unpack _ _). vm_compute. exact I.
Qed.
